(** * fix_index.py: anchor-based augmentation of [src/index.ts]

    The script reads one file, rewrites it with two [str.replace] calls and
    one [re.sub] call, writes it back and prints a four-line summary.  This
    development embeds the script shallowly: Python text is a list of
    characters, the two library calls are modelled by one left-to-right
    scanner, and the file accesses are threaded through a small
    state-and-error monad. *)

From Stdlib Require Import Ascii String List Arith Bool Lia.
Import ListNotations.

Local Open Scope list_scope.

(** ** Python text *)

Module PyStr.

(** A Python [str] value: a sequence of characters. *)
Definition str := list ascii.

(** The text of a literal. *)
Definition lit (s : string) : str := list_ascii_of_string s.

(** U+000A, written [\n] in the source. *)
Definition nl : ascii := "010"%char.

Fixpoint str_eqb (a b : str) : bool :=
  match a, b with
  | [], [] => true
  | x :: a', y :: b' => Ascii.eqb x y && str_eqb a' b'
  | _, _ => false
  end.

(** [strip_prefix p s] is [Some r] when [s = p ++ r]: what is left of [s]
    once a match of the literal [p] at its head has been consumed. *)
Fixpoint strip_prefix (p s : str) : option str :=
  match p with
  | [] => Some s
  | x :: p' =>
      match s with
      | [] => None
      | y :: s' => if Ascii.eqb x y then strip_prefix p' s' else None
      end
  end.

(** [s.startswith(p)] *)
Definition startswith (p s : str) : bool :=
  match strip_prefix p s with Some _ => true | None => false end.

(** Start offsets, counted from [i], of every occurrence of [p] in [s]
    (overlapping occurrences included). *)
Fixpoint occs_from (i : nat) (p s : str) : list nat :=
  (if startswith p s then [i] else []) ++
  match s with
  | [] => []
  | _ :: s' => occs_from (S i) p s'
  end.

Definition occs (p s : str) : list nat := occs_from 0 p s.

(** [p in s] *)
Definition contains (p s : str) : bool :=
  match occs p s with [] => false | _ :: _ => true end.

(** [s.find(p)], with [None] for Python's [-1]. *)
Definition str_find (p s : str) : option nat := hd_error (occs p s).

(** [sep.join(parts)] *)
Fixpoint join (sep : str) (parts : list str) : str :=
  match parts with
  | [] => []
  | [x] => x
  | x :: rest => x ++ sep ++ join sep rest
  end.

(** [s.split("\n")] *)
Fixpoint split_lines (s : str) : list str :=
  match s with
  | [] => [[]]
  | c :: s' =>
      if Ascii.eqb c nl then [] :: split_lines s'
      else match split_lines s' with
           | l :: ls => (c :: l) :: ls
           | [] => [[c]]
           end
  end.

(** *** Leftmost, non-overlapping substitution

    [str.replace] and [re.sub] share one scanning discipline: try to match at
    the current position; on a match emit the replacement and resume right
    after the matched text; otherwise copy one character and move on.  An
    empty match emits the replacement and then copies one character.  The
    matcher [m] returns the replacement for the match at the head of its
    argument together with the text that follows the match. *)
Fixpoint sub_scan (fuel : nat) (m : str -> option (str * str)) (s : str) : str :=
  match fuel with
  | 0 => s
  | S n =>
      match m s with
      | Some (r, rest) =>
          if Nat.ltb (length rest) (length s) then r ++ sub_scan n m rest
          else match s with
               | [] => r
               | c :: s' => r ++ c :: sub_scan n m s'
               end
      | None =>
          match s with
          | [] => []
          | c :: s' => c :: sub_scan n m s'
          end
      end
  end.

Definition sub_all (m : str -> option (str * str)) (s : str) : str :=
  sub_scan (S (length s)) m s.

Definition literal_matcher (old new : str) (s : str) : option (str * str) :=
  match strip_prefix old s with
  | Some rest => Some (new, rest)
  | None => None
  end.

(** [s.replace(old, new)]: every non-overlapping occurrence, no count. *)
Definition str_replace (old new s : str) : str :=
  sub_all (literal_matcher old new) s.

End PyStr.

Import PyStr.

(** ** The fragment of Python's [re] module that the script uses *)

Module PyRe.

(** A compiled pattern of the fragment: literal characters and capture
    groups with a literal body, in sequence. *)
Inductive pat_item : Type :=
| PChar (c : ascii)
| PGroup (body : str).

Definition pattern := list pat_item.

(** Characters with a meaning of their own in a pattern; [(], [)] and the
    backslash are handled by the parser, the others are outside the
    fragment.  A lone closing bracket is an ordinary character. *)
Definition is_meta (c : ascii) : bool :=
  existsb (Ascii.eqb c) (lit ".^$*+?{[|").

(** Pattern parser.  [grp] holds the body (reversed) of the group being read.
    [None] stands for a pattern outside the fragment or rejected by [re]. *)
Fixpoint parse_pattern (grp : option str) (s : str) : option pattern :=
  let emit c s' :=
    match grp with
    | Some body => parse_pattern (Some (c :: body)) s'
    | None => option_map (cons (PChar c)) (parse_pattern None s')
    end in
  match s with
  | [] => match grp with None => Some [] | Some _ => None end
  | "("%char :: s' =>
      match grp with
      | None => parse_pattern (Some []) s'
      | Some _ => None
      end
  | ")"%char :: s' =>
      match grp with
      | Some body => option_map (cons (PGroup (rev body))) (parse_pattern None s')
      | None => None
      end
  | "\"%char :: "n"%char :: s' => emit nl s'
  | "\"%char :: _ => None
  | c :: s' => if is_meta c then None else emit c s'
  end.

Definition re_compile (src : str) : option pattern := parse_pattern None src.

(** Text of the capture groups, in order: with literal bodies a group
    always captures its body. *)
Fixpoint match_at (p : pattern) (s : str) : option (list str * str) :=
  match p with
  | [] => Some ([], s)
  | PChar c :: p' =>
      match s with
      | [] => None
      | d :: s' => if Ascii.eqb c d then match_at p' s' else None
      end
  | PGroup body :: p' =>
      match strip_prefix body s with
      | None => None
      | Some s' =>
          match match_at p' s' with
          | Some (gs, rest) => Some (body :: gs, rest)
          | None => None
          end
      end
  end.

(** The text a pattern of the fragment matches, and what its groups
    capture: both are fixed by the pattern. *)
Fixpoint pat_text (p : pattern) : str :=
  match p with
  | [] => []
  | PChar c :: p' => c :: pat_text p'
  | PGroup body :: p' => body ++ pat_text p'
  end.

Fixpoint pat_groups (p : pattern) : list str :=
  match p with
  | [] => []
  | PChar _ :: p' => pat_groups p'
  | PGroup body :: p' => body :: pat_groups p'
  end.

Definition group_count (p : pattern) : nat :=
  length (filter (fun it => match it with PGroup _ => true | PChar _ => false end) p).

(** A replacement template: literal characters and group references. *)
Inductive tmpl_item : Type :=
| TLit (c : ascii)
| TGroup (n : nat).

Definition digit_value (c : ascii) : option nat :=
  let n := nat_of_ascii c in
  if (48 <=? n) && (n <=? 57) then Some (n - 48) else None.

Definition starts_with_digit (s : str) : bool :=
  match s with
  | c :: _ => match digit_value c with Some _ => true | None => false end
  | [] => false
  end.

(** Template parser.  Only a backslash opens an escape; the fragment has the
    one-digit group reference, a backslash followed by a digit from 1 to 9 and
    then by something that is not a digit.  Every other character, control
    characters included, stands for itself. *)
Fixpoint parse_template (t : str) : option (list tmpl_item) :=
  match t with
  | [] => Some []
  | "\"%char :: d :: t' =>
      match digit_value d with
      | Some (S k) =>
          if starts_with_digit t' then None
          else option_map (cons (TGroup (S k))) (parse_template t')
      | _ => None
      end
  | "\"%char :: [] => None
  | c :: t' => option_map (cons (TLit c)) (parse_template t')
  end.

Definition valid_refs (groups : nat) (t : list tmpl_item) : bool :=
  forallb (fun it => match it with TGroup n => n <=? groups | TLit _ => true end) t.

Fixpoint expand (t : list tmpl_item) (gs : list str) : str :=
  match t with
  | [] => []
  | TLit c :: t' => c :: expand t' gs
  | TGroup n :: t' => nth (pred n) gs [] ++ expand t' gs
  end.

Definition regex_matcher (p : pattern) (t : list tmpl_item) (s : str)
  : option (str * str) :=
  match match_at p s with
  | Some (gs, rest) => Some (expand t gs, rest)
  | None => None
  end.

(** [re.sub(pattern, repl, s)] with the default count: every non-overlapping
    match is replaced.  [None] is the [re.error] exception. *)
Definition re_sub (pat repl s : str) : option str :=
  match re_compile pat, parse_template repl with
  | Some p, Some t =>
      if valid_refs (group_count p) t
      then Some (sub_all (regex_matcher p t) s)
      else None
  | _, _ => None
  end.

End PyRe.

Import PyRe.

(** ** Text files

    The file holds bytes.  [open(path, 'r', encoding='utf-8')] decodes them
    strictly and in universal-newlines mode; [open(path, 'w',
    encoding='utf-8')] encodes the text and writes the platform's line
    separator for every line feed.  The rewrites of the script look for and
    insert ASCII text only, which UTF-8 stores byte for byte and never lets
    occur inside the encoding of another character; a text is therefore held
    in this development as the sequence of its UTF-8 code units.  Decoding is
    then the check that the bytes are well-formed UTF-8, followed by the
    newline translation, and encoding is the newline translation alone. *)

Module Codec.

(** U+000D *)
Definition cr : ascii := "013"%char.

Definition byte_in (lo hi : nat) (b : ascii) : bool :=
  (lo <=? nat_of_ascii b) && (nat_of_ascii b <=? hi).

(** Bounds of the second byte after the lead byte [n]: [E0] asks for
    [A0..BF] and [F0] for [90..BF] (no overlong form), [ED] for [80..9F] (no
    surrogate) and [F4] for [80..8F] (nothing above U+10FFFF). *)
Definition second_lo (n : nat) : nat :=
  if n =? 224 then 160 else if n =? 240 then 144 else 128.

Definition second_hi (n : nat) : nat :=
  if n =? 237 then 159 else if n =? 244 then 143 else 191.

(** Well-formed UTF-8, as the strict decoder accepts it. *)
Fixpoint utf8_valid (s : str) : bool :=
  match s with
  | [] => true
  | b0 :: s1 =>
      let n := nat_of_ascii b0 in
      if n <? 128 then utf8_valid s1
      else if n <? 194 then false
      else if n <? 224 then
        match s1 with
        | b1 :: s2 => byte_in 128 191 b1 && utf8_valid s2
        | _ => false
        end
      else if n <? 240 then
        match s1 with
        | b1 :: b2 :: s3 =>
            byte_in (second_lo n) (second_hi n) b1 && byte_in 128 191 b2
            && utf8_valid s3
        | _ => false
        end
      else if n <? 245 then
        match s1 with
        | b1 :: b2 :: b3 :: s4 =>
            byte_in (second_lo n) (second_hi n) b1 && byte_in 128 191 b2
            && byte_in 128 191 b3 && utf8_valid s4
        | _ => false
        end
      else false
  end.

(** Reading with [newline=None]: [\r\n] and a lone [\r] become [\n]. *)
Fixpoint universal_newlines (s : str) : str :=
  match s with
  | [] => []
  | c :: s' =>
      if Ascii.eqb c cr then
        match s' with
        | d :: s'' =>
            if Ascii.eqb d nl then nl :: universal_newlines s''
            else nl :: universal_newlines s'
        | [] => [nl]
        end
      else c :: universal_newlines s'
  end.

(** What [f.read()] returns for the stored bytes; [None] is
    [UnicodeDecodeError]. *)
Definition decode_text (bytes : str) : option str :=
  if utf8_valid bytes then Some (universal_newlines bytes) else None.

(** What [f.write(data)] stores: every [\n] becomes [os.linesep]. *)
Definition encode_text (linesep : str) (data : str) : str :=
  flat_map (fun c => if Ascii.eqb c nl then linesep else [c]) data.

Definition ascii_only (s : str) : bool :=
  forallb (fun c => nat_of_ascii c <? 128) s.

Definition no_cr (s : str) : bool :=
  forallb (fun c => negb (Ascii.eqb c cr)) s.

End Codec.

Import Codec.

(** ** The script *)

Module FixIndex.

(** A triple-quoted literal whose every line ends with a line break. *)
Definition text_of_lines (ls : list string) : str :=
  concat (map (fun l => lit l ++ [nl]) ls).

Definition import_statement : str :=
  text_of_lines
    [ "import {";
      "  addDatabaseFileTool,";
      "  removeDatabaseFileTool,";
      "  modifyDatabaseFileTool,";
      "  shrinkDatabaseFileTool,";
      "  createFilegroupTool,";
      "  removeFilegroupTool,";
      "  modifyFilegroupTool,";
      "  listFilegroupsTool,";
      "  listDatabaseFilesTool,";
      "} from './tools/file-management.js';" ]%string.

(** The literal opens with a line break and closes right after the last
    entry. *)
Definition tools_addition : str :=
  nl :: join [nl]
    (map lit
      [ "  // File and filegroup management tools";
        "  addDatabaseFileTool,";
        "  removeDatabaseFileTool,";
        "  modifyDatabaseFileTool,";
        "  shrinkDatabaseFileTool,";
        "  createFilegroupTool,";
        "  removeFilegroupTool,";
        "  modifyFilegroupTool,";
        "  listFilegroupsTool,";
        "  listDatabaseFilesTool," ]%string).

Definition write_ops : str :=
  text_of_lines
    [ "  'sqlserver_add_database_file',";
      "  'sqlserver_remove_database_file',";
      "  'sqlserver_modify_database_file',";
      "  'sqlserver_shrink_database_file',";
      "  'sqlserver_create_filegroup',";
      "  'sqlserver_remove_filegroup',";
      "  'sqlserver_modify_filegroup'," ]%string.

(** Step 1: [content.replace("} from './tools/performance.js';", ... )]. *)
Definition import_anchor : str := lit "} from './tools/performance.js';".

Definition import_replacement : str :=
  lit "} from './tools/performance.js';" ++ [nl] ++ import_statement.

Definition add_import (content : str) : str :=
  str_replace import_anchor import_replacement content.

(** Step 2: [re.sub(r"(  getWaitStatsTool,)\n(];)", r"\1" + tools_addition +
    "\n\2", content)].  The pattern and the first piece of the replacement are
    raw literals, so their backslashes reach [re] as written.  The last piece
    is an ordinary literal: Python reads its [\n] as U+000A and its [\2] as
    the octal escape for U+0002 before [re] sees the string. *)
Definition tools_pattern : str := lit "(  getWaitStatsTool,)\n(];)".

Definition tools_repl : str :=
  lit "\1" ++ tools_addition ++ [nl; "002"%char].

Definition add_tools (content : str) : option str :=
  re_sub tools_pattern tools_repl content.

(** Step 3: [content.replace("  'sqlserver_delete_job',\n]);", ...)]. *)
Definition write_anchor : str :=
  lit "  'sqlserver_delete_job'," ++ [nl] ++ lit "]);".

Definition write_replacement : str :=
  lit "  'sqlserver_delete_job'," ++ [nl] ++ write_ops ++ lit "]);".

Definition add_write_ops (content : str) : str :=
  str_replace write_anchor write_replacement content.

(** The three rewrites, each on the result of the one before.  [None] is an
    exception escaping from [re.sub]. *)
Definition augment (content : str) : option str :=
  match add_tools (add_import content) with
  | Some c => Some (add_write_ops c)
  | None => None
  end.

(** *** The three regions

    Each rewrite replaces the text [anchor] by the text [replacement], which
    carries the region's new [block].  For the registration list the anchor
    is the text the pattern matches and the replacement is what the template
    expands to (see [add_tools_replace]). *)
Record region : Type := {
  anchor : str;
  replacement : str;
  block : str
}.

Definition import_region : region :=
  {| anchor := import_anchor;
     replacement := import_replacement;
     block := import_statement |}.

Definition tools_anchor : str :=
  lit "  getWaitStatsTool," ++ [nl] ++ lit "];".

Definition tools_replacement : str :=
  lit "  getWaitStatsTool," ++ tools_addition ++ [nl; "002"%char].

Definition tools_region : region :=
  {| anchor := tools_anchor;
     replacement := tools_replacement;
     block := tools_addition |}.

Definition write_region : region :=
  {| anchor := write_anchor;
     replacement := write_replacement;
     block := write_ops |}.

Definition apply_region (r : region) (content : str) : str :=
  str_replace (anchor r) (replacement r) content.

(** The whole rewrite in terms of regions. *)
Definition augmented (content : str) : str :=
  apply_region write_region
    (apply_region tools_region (apply_region import_region content)).

(** *** The script with its file accesses

    The world is the one file the script names, with the bytes it holds,
    whether it may be opened for reading and for writing, the line separator
    of the platform, the lines printed so far and a log of the file
    operations attempted. *)
Inductive error : Type :=
| FileAccessError
| DecodeError
| ReError.

Inductive event : Type :=
| EvOpenRead
| EvOpenWrite
| EvWrite (data : str)
| EvPrint (line : str).

Record world : Type := {
  file : option str;
  readable : bool;
  writable : bool;
  linesep : str;
  stdout : list str;
  log : list event
}.

Definition io (X : Type) : Type := world -> (X + error) * world.

Definition ret {X : Type} (x : X) : io X := fun w => (inl x, w).

Definition raise {X : Type} (e : error) : io X := fun w => (inr e, w).

Definition bind {X Y : Type} (c : io X) (k : X -> io Y) : io Y :=
  fun w =>
    match c w with
    | (inl x, w') => k x w'
    | (inr e, w') => (inr e, w')
    end.

Notation "x <- c ;; k" := (bind c (fun x => k))
  (at level 61, c at next level, right associativity).
Notation "c ;; k" := (bind c (fun _ => k))
  (at level 61, right associativity).

Definition record (e : event) : io unit :=
  fun w =>
    (inl tt,
     {| file := file w; readable := readable w; writable := writable w;
        linesep := linesep w; stdout := stdout w; log := log w ++ [e] |}).

Definition set_file (bytes : str) : io unit :=
  fun w =>
    (inl tt,
     {| file := Some bytes; readable := readable w; writable := writable w;
        linesep := linesep w; stdout := stdout w; log := log w |}).

(** [with open(path, 'r', encoding='utf-8') as f: f.read()]: opening fails
    when the file is missing or may not be read; reading fails when the bytes
    are not well-formed UTF-8; otherwise the decoded text is returned, its
    line ends translated. *)
Definition read_text : io str :=
  record EvOpenRead ;;
  fun w =>
    match file w with
    | Some bytes =>
        if readable w then
          match decode_text bytes with
          | Some data => (inl data, w)
          | None => (inr DecodeError, w)
          end
        else (inr FileAccessError, w)
    | None => (inr FileAccessError, w)
    end.

(** [with open(path, 'w', encoding='utf-8') as f: f.write(data)]: opening
    fails when the file may not be written; a successful open empties the
    file, then the encoded data are stored. *)
Definition write_text (data : str) : io unit :=
  record EvOpenWrite ;;
  ok <- (fun w => (inl (writable w), w)) ;;
  if ok : bool then
    set_file [] ;;
    record (EvWrite data) ;;
    sep <- (fun w => (inl (linesep w), w)) ;;
    set_file (encode_text sep data)
  else raise FileAccessError.

Definition print (line : string) : io unit :=
  record (EvPrint (lit line)) ;;
  fun w =>
    (inl tt,
     {| file := file w; readable := readable w; writable := writable w;
        linesep := linesep w; stdout := stdout w ++ [lit line];
        log := log w |}).

Definition from_re {X : Type} (o : option X) : io X :=
  match o with
  | Some x => ret x
  | None => raise ReError
  end.

Definition main : io unit :=
  content <- read_text ;;
  let content := add_import content in
  content <- from_re (add_tools content) ;;
  let content := add_write_ops content in
  write_text content ;;
  print "Successfully updated index.ts" ;;
  print "- Added file-management import" ;;
  print "- Added 9 new tools to tools array" ;;
  print "- Added 7 write operations to writeOperations set".

(** The summary lines of a run, in order. *)
Definition summary : list str :=
  map lit
    [ "Successfully updated index.ts";
      "- Added file-management import";
      "- Added 9 new tools to tools array";
      "- Added 7 write operations to writeOperations set" ]%string.

(** A world on a platform whose line separator is the line feed, with
    nothing printed or logged yet. *)
Definition fresh (content : option str) (r w : bool) : world :=
  {| file := content; readable := r; writable := w; linesep := [nl];
     stdout := []; log := [] |}.

End FixIndex.

(** ** Sample contents of [src/index.ts] *)

Module Samples.

Import FixIndex.

(** The import line twice, on consecutive lines. *)
Definition two_imports : str :=
  lit "} from './tools/performance.js';" ++ [nl] ++
  lit "} from './tools/performance.js';".

(** A file with each of the three anchors once. *)
Definition index_ts : str :=
  text_of_lines
    [ "import {";
      "  getWaitStatsTool,";
      "} from './tools/performance.js';";
      "";
      "const tools = [";
      "  getWaitStatsTool,";
      "];";
      "";
      "const writeOperations = new Set([";
      "  'sqlserver_delete_job',";
      "]);" ]%string.

(** The registration list alone. *)
Definition tools_array : str :=
  text_of_lines
    [ "const tools = [";
      "  getWaitStatsTool,";
      "];" ]%string.

(** The registration list with a comment after the closing bracket. *)
Definition tools_array_commented : str :=
  text_of_lines
    [ "const tools = [";
      "  getWaitStatsTool,";
      "]; // end of tools" ]%string.

(** The registration list with one more entry after the anchor line. *)
Definition tools_array_longer : str :=
  text_of_lines
    [ "const tools = [";
      "  getWaitStatsTool,";
      "  getBlockingTool,";
      "];" ]%string.

(** A file with the registration list and the identifier set but without
    the import line. *)
Definition no_import_line : str :=
  text_of_lines
    [ "const tools = [";
      "  getWaitStatsTool,";
      "];";
      "const writeOperations = new Set([";
      "  'sqlserver_delete_job',";
      "]);" ]%string.

(** A file without any anchor. *)
Definition no_anchor : str := text_of_lines [ "export {};" ]%string.

End Samples.

Import FixIndex.

(** ** Vocabulary of the statements *)

Module Overlap.

(** [first_match old pre]: in [pre ++ old] the anchor occurs at the end and
    nowhere before, so a scan from the left meets it first at offset
    [length pre]. *)
Definition first_match (old pre : str) : Prop :=
  occs old (pre ++ old) = [length pre].

(** The last [m] characters. *)
Definition lastn (m : nat) (l : str) : str := skipn (length l - m) l.

(** No occurrence of [b] can begin inside a text that ends with [t] and run
    past its end: no proper, non-empty prefix of [b] agrees with the end of
    [t]. *)
Definition no_cross_right (t b : str) : bool :=
  forallb
    (fun k =>
       let m := Nat.min k (length t) in
       negb (str_eqb (lastn m (firstn k b)) (lastn m t)))
    (seq 1 (length b - 1)).

(** No occurrence of [b] can begin before [y] and end inside it: no proper,
    non-empty suffix of [b] starts [y]. *)
Definition no_cross_left (b y : str) : bool :=
  forallb (fun k => negb (startswith (skipn k b) y)) (seq 1 (length b - 1)).

Definition nonempty (b : str) : bool :=
  match b with [] => false | _ :: _ => true end.

(** Replacing [old] by [new] can neither break nor make an occurrence of
    [b]: occurrences of [b] do not cross the edges of either text and sit
    at the same offsets inside both. *)
Definition apart (old new b : str) : bool :=
  nonempty b
  && no_cross_right old b && no_cross_right new b
  && no_cross_left b old && no_cross_left b new
  && (if list_eq_dec Nat.eq_dec (occs b old) (occs b new) then true else false).

(** The replacement leaves no occurrence of the anchor it replaces. *)
Definition consumed (old new : str) : bool :=
  nonempty old
  && no_cross_right new old && no_cross_left old new
  && (if list_eq_dec Nat.eq_dec (occs old new) [] then true else false).

(** [out] is [s] with one occurrence of [old] replaced by [new] and nothing
    else changed. *)
Definition single_splice (old new s out : str) : Prop :=
  exists pre post, s = pre ++ old ++ post /\ out = pre ++ new ++ post.

(** Line [a] is immediately followed by line [b]. *)
Fixpoint adjacent_lines (a b : str) (ls : list str) : bool :=
  match ls with
  | x :: (y :: _) as rest => (str_eqb x a && str_eqb y b) || adjacent_lines a b rest
  | _ => false
  end.

End Overlap.

Import Overlap.
Import Samples.

(** ** Vocabulary for runs and for the order of the rewrites *)

Module Compose.

Import FixIndex.

(** No occurrence of [a] overlaps another one: [a] has no proper border. *)
Definition border_free (a : str) : bool :=
  nonempty a && no_cross_right a a && no_cross_left a a.

Definition no_occ (b s : str) : bool :=
  match occs b s with [] => true | _ :: _ => false end.

(** The rewrites [a1 -> r1] and [a2 -> r2] cannot interfere: neither anchor
    can overlap the other anchor or the other replacement, and the first
    anchor and its replacement hold no occurrence of the second anchor. *)
Definition independent (a1 r1 a2 r2 : str) : bool :=
  apart a1 r1 a2 && apart a2 r2 a1 && no_occ a2 a1 && no_occ a1 a2.

(** No occurrence of [b] crosses an edge of [old] or of [new]. *)
Definition crossfree (old new b : str) : bool :=
  nonempty b
  && no_cross_right old b && no_cross_right new b
  && no_cross_left b old && no_cross_left b new.

(** What the import rewrite puts after the import line, and this text and
    the whole replacement without their last line break. *)
Definition import_gap : str := nl :: import_statement.

Definition import_gap_head : str := removelast import_gap.

Definition import_head : str := removelast import_replacement.

(** A content without the registration-list anchor and without the
    identifier-set anchor. *)
Definition clear (x : str) : Prop :=
  occs tools_anchor x = [] /\ occs write_anchor x = [].

(** The three rewrites applied [k] times over, as [k] runs of the script
    apply them. *)
Fixpoint augment_n (k : nat) (content : str) : option str :=
  match k with
  | 0 => Some content
  | S k' =>
      match augment_n k' content with
      | Some c => augment c
      | None => None
      end
  end.

(** [k] runs of the script, one after the other; a failed run ends the
    sequence. *)
Fixpoint main_n (k : nat) : io unit :=
  match k with
  | 0 => ret tt
  | S k' => bind (main_n k') (fun _ => main)
  end.

End Compose.

Import Compose.

(** ** Basic facts about prefixes and occurrences *)

Section StrFacts.

Lemma ascii_eqb_refl (c : ascii) : Ascii.eqb c c = true.
Proof. apply Ascii.eqb_eq. reflexivity. Qed.

Lemma str_eqb_eq (a b : str) : str_eqb a b = true <-> a = b.
Proof.
  revert b. induction a as [|x a IH]; intros [|y b]; simpl; split; intros H;
    try reflexivity; try discriminate.
  - apply andb_true_iff in H. destruct H as [H1 H2].
    apply Ascii.eqb_eq in H1. apply IH in H2. congruence.
  - injection H as -> ->. rewrite ascii_eqb_refl. simpl. apply IH. reflexivity.
Qed.

Lemma strip_prefix_app (p r : str) : strip_prefix p (p ++ r) = Some r.
Proof.
  induction p as [|x p IH]; simpl; [reflexivity|].
  rewrite ascii_eqb_refl. exact IH.
Qed.

Lemma strip_prefix_Some (p s r : str) :
  strip_prefix p s = Some r -> s = p ++ r.
Proof.
  revert s. induction p as [|x p IH]; intros s H; simpl in *.
  - congruence.
  - destruct s as [|y s]; [discriminate|].
    destruct (Ascii.eqb x y) eqn:E; [|discriminate].
    apply Ascii.eqb_eq in E. subst y. simpl. f_equal. apply IH. exact H.
Qed.

Lemma startswith_true (p s : str) :
  startswith p s = true <-> exists r, s = p ++ r.
Proof.
  unfold startswith. split.
  - destruct (strip_prefix p s) as [r|] eqn:E; [|discriminate].
    intros _. exists r. apply strip_prefix_Some. exact E.
  - intros [r ->]. rewrite strip_prefix_app. reflexivity.
Qed.

Lemma startswith_app_self (p r : str) : startswith p (p ++ r) = true.
Proof. apply startswith_true. exists r. reflexivity. Qed.

Lemma startswith_length (p s : str) :
  startswith p s = true -> length p <= length s.
Proof.
  intros H. apply startswith_true in H. destruct H as [r ->].
  rewrite length_app. lia.
Qed.

Lemma startswith_short (p s : str) :
  length s < length p -> startswith p s = false.
Proof.
  intros H. destruct (startswith p s) eqn:E; [|reflexivity].
  apply startswith_length in E. lia.
Qed.

Lemma startswith_nil_r (p : str) : p <> [] -> startswith p [] = false.
Proof. destruct p; [congruence|reflexivity]. Qed.

Lemma startswith_cons (x y : ascii) (p s : str) :
  startswith (x :: p) (y :: s) = Ascii.eqb x y && startswith p s.
Proof. unfold startswith. simpl. destruct (Ascii.eqb x y); reflexivity. Qed.

(** Whether [b] starts [z ++ y] is decided inside [z] when [z] is long
    enough, and otherwise splits [b] between [z] and [y]. *)
Lemma startswith_app (b z y : str) :
  startswith b (z ++ y) =
  if length b <=? length z then startswith b z
  else startswith z b && startswith (skipn (length z) b) y.
Proof.
  revert z. induction b as [|x b IH]; intros z.
  - simpl. reflexivity.
  - destruct z as [|c z].
    + simpl. reflexivity.
    + simpl app. rewrite !startswith_cons. rewrite IH. simpl length. simpl skipn.
      change (S (length b) <=? S (length z)) with (length b <=? length z).
      destruct (length b <=? length z).
      * reflexivity.
      * rewrite (Ascii.eqb_sym c x) at 1.
        destruct (Ascii.eqb x c); reflexivity.
Qed.

Lemma startswith_app_long (b z y : str) :
  length b <= length z -> startswith b (z ++ y) = startswith b z.
Proof.
  intros H. rewrite startswith_app.
  apply Nat.leb_le in H. rewrite H. reflexivity.
Qed.

Lemma startswith_app_true (b z y : str) :
  startswith b z = true -> startswith b (z ++ y) = true.
Proof.
  intros H. rewrite startswith_app_long; [exact H|].
  apply startswith_length. exact H.
Qed.

Lemma occs_from_shift (i : nat) (p s : str) :
  occs_from i p s = map (Nat.add i) (occs p s).
Proof.
  unfold occs. revert i. induction s as [|c s IH]; intros i; simpl.
  - destruct (startswith p []); simpl; [rewrite Nat.add_0_r|]; reflexivity.
  - rewrite map_app. rewrite (IH (S i)), (IH 1). rewrite map_map.
    f_equal.
    + destruct (startswith p (c :: s)); simpl; [rewrite Nat.add_0_r|]; reflexivity.
    + apply map_ext. intros a. lia.
Qed.

Lemma occs_nil_r (p : str) : p <> [] -> occs p [] = [].
Proof. intros H. unfold occs. simpl. rewrite startswith_nil_r by exact H. reflexivity. Qed.

Lemma occs_cons (p : str) (c : ascii) (s : str) :
  occs p (c :: s) =
  (if startswith p (c :: s) then [0] else []) ++ map S (occs p s).
Proof.
  unfold occs at 1. simpl. rewrite occs_from_shift. reflexivity.
Qed.

(** An offset is listed exactly when the pattern starts the text found
    there. *)
Lemma occs_In (p s : str) (k : nat) :
  In k (occs p s) <-> k <= length s /\ startswith p (skipn k s) = true.
Proof.
  revert k. induction s as [|c s IH]; intros k.
  - unfold occs. simpl. rewrite app_nil_r. destruct k; simpl.
    + destruct (startswith p []); simpl; intuition (try discriminate; try lia).
    + destruct (startswith p []); simpl; intuition (try discriminate; try lia).
  - rewrite occs_cons. rewrite in_app_iff, in_map_iff. split.
    + intros [H|(j & <- & H)].
      * destruct (startswith p (c :: s)) eqn:E; simpl in H; [|tauto].
        destruct H as [<-|[]]. simpl. split; [lia|exact E].
      * apply IH in H. simpl. split; [lia|tauto].
    + intros [H1 H2]. destruct k as [|k].
      * left. simpl in H2. rewrite H2. left. reflexivity.
      * right. exists k. split; [reflexivity|]. apply IH. simpl in *. split; [lia|exact H2].
Qed.

Lemma occs_In_length (p s : str) (k : nat) :
  In k (occs p s) -> k + length p <= length s.
Proof.
  intros H. apply occs_In in H. destruct H as [H1 H2].
  apply startswith_length in H2. rewrite length_skipn in H2. lia.
Qed.

Lemma occs_In_app_l (p x y : str) (k : nat) :
  In k (occs p x) -> In k (occs p (x ++ y)).
Proof.
  intros H. apply occs_In in H. destruct H as [H1 H2]. apply occs_In.
  rewrite length_app. split; [lia|].
  rewrite skipn_app. replace (k - length x) with 0 by lia. simpl.
  apply startswith_app_true. exact H2.
Qed.

Lemma occs_nil_app_l (p x y : str) : occs p (x ++ y) = [] -> occs p x = [].
Proof.
  intros H. destruct (occs p x) as [|k l] eqn:E; [reflexivity|].
  assert (In k (occs p (x ++ y))) as HI.
  { apply occs_In_app_l. rewrite E. left. reflexivity. }
  rewrite H in HI. destruct HI.
Qed.

Lemma occs_nil_firstn (p s : str) (i : nat) : occs p s = [] -> occs p (firstn i s) = [].
Proof.
  intros H. apply occs_nil_app_l with (y := skipn i s).
  rewrite firstn_skipn. exact H.
Qed.

Lemma occs_self (p : str) : p <> [] -> occs p p = [0].
Proof.
  intros Hp. destruct p as [|c p]; [congruence|].
  rewrite occs_cons.
  replace (startswith (c :: p) (c :: p)) with true.
  2:{ symmetry. apply startswith_true. exists []. rewrite app_nil_r. reflexivity. }
  destruct (occs (c :: p) p) as [|k l] eqn:E; [reflexivity|].
  assert (In k (occs (c :: p) p)) as HI by (rewrite E; left; reflexivity).
  apply occs_In_length in HI. simpl in HI. lia.
Qed.

Lemma contains_true (p s : str) :
  contains p s = true <-> exists u v, s = u ++ p ++ v.
Proof.
  unfold contains. split.
  - destruct (occs p s) as [|k l] eqn:E; [discriminate|]. intros _.
    assert (In k (occs p s)) as HI by (rewrite E; left; reflexivity).
    apply occs_In in HI. destruct HI as [H1 H2].
    apply startswith_true in H2. destruct H2 as [r Hr].
    exists (firstn k s), r. rewrite <- Hr. symmetry. apply firstn_skipn.
  - intros (u & v & ->).
    assert (In (length u) (occs p (u ++ p ++ v))) as HI.
    { apply occs_In. rewrite length_app. split; [lia|].
      rewrite skipn_app, skipn_all, Nat.sub_diag. simpl.
      apply startswith_app_self. }
    destruct (occs p (u ++ p ++ v)); [destruct HI|reflexivity].
Qed.

Lemma join_cons2 (sep x y : str) (l : list str) :
  join sep (x :: y :: l) = x ++ sep ++ join sep (y :: l).
Proof. reflexivity. Qed.

Lemma contains_false (p s : str) : contains p s = false <-> occs p s = [].
Proof.
  unfold contains. destruct (occs p s); split; intros H; congruence.
Qed.

End StrFacts.

(** ** The scanner and [str.replace] *)

Section Scanner.

Variable m : str -> option (str * str).

Lemma sub_scan_fuel2 (n1 n2 : nat) (s : str) :
  length s < n1 -> length s < n2 -> sub_scan n1 m s = sub_scan n2 m s.
Proof.
  revert n2 s. induction n1 as [|n1 IH]; intros n2 s H1 H2; [lia|].
  destruct n2 as [|n2]; [lia|]. simpl.
  destruct (m s) as [[r rest]|].
  - destruct (Nat.ltb (length rest) (length s)) eqn:E.
    + apply Nat.ltb_lt in E. f_equal. apply IH; lia.
    + destruct s as [|c s]; [reflexivity|]. simpl in H1, H2.
      do 2 f_equal. apply IH; lia.
  - destruct s as [|c s]; [reflexivity|]. simpl in H1, H2.
    f_equal. apply IH; lia.
Qed.

Lemma sub_scan_fuel (n : nat) (s : str) :
  length s < n -> sub_scan n m s = sub_all m s.
Proof. intros H. apply sub_scan_fuel2; lia. Qed.

Lemma sub_scan_S (n : nat) (s : str) :
  sub_scan (S n) m s =
  match m s with
  | Some (r, rest) =>
      if Nat.ltb (length rest) (length s) then r ++ sub_scan n m rest
      else match s with
           | [] => r
           | c :: s' => r ++ c :: sub_scan n m s'
           end
  | None =>
      match s with
      | [] => []
      | c :: s' => c :: sub_scan n m s'
      end
  end.
Proof. reflexivity. Qed.

Lemma sub_all_match (s r rest : str) :
  m s = Some (r, rest) -> length rest < length s ->
  sub_all m s = r ++ sub_all m rest.
Proof.
  intros Hm Hl. unfold sub_all at 1. rewrite sub_scan_S, Hm.
  apply Nat.ltb_lt in Hl. rewrite Hl. apply Nat.ltb_lt in Hl.
  rewrite sub_scan_fuel by exact Hl. reflexivity.
Qed.

Lemma sub_all_skip (c : ascii) (s : str) :
  m (c :: s) = None -> sub_all m (c :: s) = c :: sub_all m s.
Proof.
  intros Hm. unfold sub_all at 1. rewrite sub_scan_S, Hm.
  rewrite sub_scan_fuel by (simpl; lia). reflexivity.
Qed.

Lemma sub_all_nil : m [] = None -> sub_all m [] = [].
Proof. intros Hm. unfold sub_all. simpl. rewrite Hm. reflexivity. Qed.

End Scanner.

Lemma sub_all_ext (m1 m2 : str -> option (str * str)) :
  (forall s, m1 s = m2 s) -> forall s, sub_all m1 s = sub_all m2 s.
Proof.
  intros H s. unfold sub_all. generalize (S (length s)) as n. intros n.
  revert s. induction n as [|n IH]; intros s; simpl; [reflexivity|].
  rewrite H. destruct (m2 s) as [[r rest]|].
  - destruct (Nat.ltb (length rest) (length s)).
    + rewrite IH. reflexivity.
    + destruct s; [reflexivity|]. rewrite IH. reflexivity.
  - destruct s; [reflexivity|]. rewrite IH. reflexivity.
Qed.

Section FirstMatch.

Variable old : str.
Hypothesis old_nonempty : old <> [].

Let first_match := first_match old.

Lemma first_match_nil : first_match [].
Proof. unfold first_match, Overlap.first_match. simpl. apply occs_self. exact old_nonempty. Qed.

Lemma first_match_cons (c : ascii) (pre : str) :
  first_match (c :: pre) <->
  startswith old (c :: pre ++ old) = false /\ first_match pre.
Proof.
  unfold first_match, Overlap.first_match. simpl app. rewrite occs_cons. simpl length.
  destruct (startswith old (c :: pre ++ old)); simpl; split.
  - intros H. destruct (occs old (pre ++ old)); discriminate.
  - intros [H _]. discriminate.
  - intros H. split; [reflexivity|].
    destruct (occs old (pre ++ old)) as [|a [|b l]]; simpl in H; try discriminate.
    congruence.
  - intros [_ H]. rewrite H. reflexivity.
Qed.

Lemma first_match_no_occ (pre : str) : first_match pre -> occs old pre = [].
Proof.
  intros H. destruct (occs old pre) as [|k l] eqn:E; [reflexivity|].
  assert (In k (occs old pre)) as HI by (rewrite E; left; reflexivity).
  pose proof (occs_In_length _ _ _ HI) as HL.
  apply occs_In_app_l with (y := old) in HI. rewrite H in HI.
  destruct HI as [<-|[]]. destruct old; [congruence|simpl in HL; lia].
Qed.

(** Every text either has no occurrence of the anchor or splits at its
    first occurrence. *)
Lemma first_match_cases (s : str) :
  occs old s = [] \/
  exists pre post, s = pre ++ old ++ post /\ first_match pre.
Proof.
  induction s as [|c s IH].
  - left. apply occs_nil_r. exact old_nonempty.
  - destruct (startswith old (c :: s)) eqn:E.
    + right. apply startswith_true in E. destruct E as [r Hr].
      exists [], r. split; [exact Hr|apply first_match_nil].
    + destruct IH as [IH|(pre & post & -> & Hf)].
      * left. rewrite occs_cons, E, IH. reflexivity.
      * right. exists (c :: pre), post. split; [reflexivity|].
        apply first_match_cons. split; [|exact Hf].
        change (c :: pre ++ old ++ post) with ((c :: pre) ++ old ++ post) in E.
        rewrite app_assoc in E. rewrite startswith_app_long in E; [exact E|].
        simpl. rewrite length_app. lia.
Qed.

(** Induction along the scan: a property holds of every text when it holds
    of texts without the anchor and is carried over the first match. *)
Lemma scan_ind (P : str -> Prop) :
  (forall s, occs old s = [] -> P s) ->
  (forall pre post, first_match pre -> P post -> P (pre ++ old ++ post)) ->
  forall s, P s.
Proof.
  intros Hnone Hstep s.
  remember (length s) as n eqn:Hn. revert s Hn.
  induction n as [n IH] using lt_wf_ind. intros s Hn.
  destruct (first_match_cases s) as [H|(pre & post & -> & Hf)].
  - apply Hnone. exact H.
  - apply Hstep; [exact Hf|].
    apply (IH (length post)); [|reflexivity].
    subst n. rewrite !length_app. destruct old; [congruence|simpl; lia].
Qed.

End FirstMatch.

Section Replace.

Variables old new : str.
Hypothesis old_nonempty : old <> [].

Let rep := str_replace old new.
Let first_match := first_match old.

Lemma str_replace_nil : rep [] = [].
Proof.
  apply sub_all_nil. unfold literal_matcher.
  destruct old; [congruence|reflexivity].
Qed.

Lemma str_replace_match (rest : str) : rep (old ++ rest) = new ++ rep rest.
Proof.
  apply sub_all_match.
  - unfold literal_matcher. rewrite strip_prefix_app. reflexivity.
  - rewrite length_app. destruct old; [congruence|simpl; lia].
Qed.

Lemma str_replace_skip (c : ascii) (s : str) :
  startswith old (c :: s) = false -> rep (c :: s) = c :: rep s.
Proof.
  intros H. apply sub_all_skip. unfold literal_matcher.
  unfold startswith in H. destruct (strip_prefix old (c :: s)); [discriminate|reflexivity].
Qed.

(** The scan copies everything before the first match, emits the replacement
    and resumes after the match. *)
Lemma str_replace_first (pre post : str) :
  first_match pre -> rep (pre ++ old ++ post) = pre ++ new ++ rep post.
Proof.
  induction pre as [|c pre IH]; intros H.
  - simpl. apply str_replace_match.
  - apply (first_match_cons old) in H. destruct H as [H1 H2].
    simpl app. rewrite str_replace_skip.
    + rewrite IH by exact H2. reflexivity.
    + change (c :: pre ++ old ++ post) with ((c :: pre) ++ old ++ post).
      rewrite app_assoc. rewrite startswith_app_long; [exact H1|].
      simpl. rewrite length_app. lia.
Qed.

Lemma str_replace_none (s : str) : occs old s = [] -> rep s = s.
Proof.
  induction s as [|c s IH]; intros H.
  - apply str_replace_nil.
  - rewrite occs_cons in H. apply app_eq_nil in H. destruct H as [H1 H2].
    rewrite str_replace_skip.
    + rewrite IH; [reflexivity|]. destruct (occs old s); [reflexivity|discriminate].
    + destruct (startswith old (c :: s)); [discriminate|reflexivity].
Qed.

(** [s.replace(old, new) == new.join(s.split(old))]: the text is cut at
    the matches into pieces free of the anchor, and the result carries the
    same pieces with the replacement between them. *)
Lemma str_replace_pieces (s : str) :
  exists pieces,
    pieces <> [] /\
    s = join old pieces /\
    rep s = join new pieces /\
    Forall (fun g => contains old g = false) pieces.
Proof.
  induction s as [s H|pre post Hf (pieces & Hne & Hs & Hr & Hall)]
    using (scan_ind old old_nonempty).
  - exists [s]. repeat split; try discriminate.
    + simpl. apply str_replace_none. exact H.
    + constructor; [|constructor]. apply contains_false. exact H.
  - exists (pre :: pieces). split; [discriminate|].
    destruct pieces as [|g pieces]; [congruence|].
    repeat split.
    + rewrite join_cons2, <- Hs. reflexivity.
    + rewrite str_replace_first by exact Hf. rewrite join_cons2, <- Hr. reflexivity.
    + constructor; [|exact Hall]. apply contains_false.
      apply (first_match_no_occ old old_nonempty). exact Hf.
Qed.

End Replace.

(** ** Occurrences across a concatenation *)

Section Crossing.

Variable b : str.
Hypothesis b_nonempty : b <> [].

Lemma map_add_0 (l : list nat) : map (Nat.add 0) l = l.
Proof. rewrite <- (map_id l) at 2. apply map_ext. reflexivity. Qed.

Lemma occs_app_split (x y : str) :
  (forall x1 x2, x = x1 ++ x2 -> x2 <> [] ->
     startswith b (x2 ++ y) = startswith b x2) ->
  occs b (x ++ y) = occs b x ++ map (Nat.add (length x)) (occs b y).
Proof.
  induction x as [|c x IH]; intros H.
  - simpl. rewrite occs_nil_r by exact b_nonempty. rewrite map_add_0. reflexivity.
  - simpl app. rewrite !occs_cons.
    rewrite <- (H [] (c :: x)) by (reflexivity || discriminate). simpl app.
    rewrite IH.
    + rewrite map_app, map_map, <- app_assoc. reflexivity.
    + intros x1 x2 -> Hx2. apply (H (c :: x1) x2); [reflexivity|exact Hx2].
Qed.

Lemma lastn_app (m : nat) (u v : str) :
  m <= length v -> lastn m (u ++ v) = lastn m v.
Proof.
  intros H. unfold lastn. rewrite skipn_app, length_app.
  rewrite skipn_all2 by lia. simpl. f_equal. lia.
Qed.

Lemma no_cross_right_sound (t u z1 z2 v : str) :
  no_cross_right t b = true ->
  u ++ t = z1 ++ z2 -> z2 <> [] ->
  startswith b (z2 ++ v) = startswith b z2.
Proof.
  intros Hc Heq Hz. rewrite startswith_app.
  destruct (length b <=? length z2) eqn:E; [reflexivity|].
  apply Nat.leb_gt in E. rewrite (startswith_short b z2) by exact E.
  destruct (startswith z2 b) eqn:Hp; [|reflexivity]. exfalso.
  apply startswith_true in Hp. destruct Hp as [r Hr].
  unfold no_cross_right in Hc. rewrite forallb_forall in Hc.
  specialize (Hc (length z2)).
  assert (In (length z2) (seq 1 (length b - 1))) as Hin.
  { apply in_seq. destruct z2; [congruence|simpl in *; lia]. }
  apply Hc in Hin. apply negb_true_iff in Hin.
  assert (firstn (length z2) b = z2) as Hf.
  { rewrite Hr, firstn_app, firstn_all, Nat.sub_diag. simpl. apply app_nil_r. }
  rewrite Hf in Hin.
  assert (lastn (Nat.min (length z2) (length t)) z2 =
          lastn (Nat.min (length z2) (length t)) t) as Hl.
  { rewrite <- (lastn_app _ z1 z2) by lia. rewrite <- Heq.
    apply lastn_app. lia. }
  apply str_eqb_eq in Hl. congruence.
Qed.

Lemma no_cross_left_sound (y z : str) :
  no_cross_left b y = true -> z <> [] ->
  startswith b (z ++ y) = startswith b z.
Proof.
  intros Hc Hz. rewrite startswith_app.
  destruct (length b <=? length z) eqn:E; [reflexivity|].
  apply Nat.leb_gt in E. rewrite (startswith_short b z) by exact E.
  apply andb_false_iff. right.
  unfold no_cross_left in Hc. rewrite forallb_forall in Hc.
  apply negb_true_iff. apply Hc. apply in_seq.
  destruct z; [congruence|simpl in *; lia].
Qed.

Lemma occs_app_right (t u v : str) :
  no_cross_right t b = true ->
  occs b ((u ++ t) ++ v) =
  occs b (u ++ t) ++ map (Nat.add (length (u ++ t))) (occs b v).
Proof.
  intros Hc. apply occs_app_split. intros x1 x2 Hx Hne.
  apply (no_cross_right_sound t u x1 x2 v Hc Hx Hne).
Qed.

Lemma occs_app_left (x y : str) :
  no_cross_left b y = true ->
  occs b (x ++ y) = occs b x ++ map (Nat.add (length x)) (occs b y).
Proof.
  intros Hc. apply occs_app_split. intros x1 x2 _ Hne.
  apply no_cross_left_sound; assumption.
Qed.

(** Around one replaced text: the occurrences of [b] in [pre ++ t ++ post]
    are those of [pre], of [t] and of [post], each at its place. *)
Lemma occs_three (pre t post : str) :
  no_cross_right t b = true -> no_cross_left b t = true ->
  occs b (pre ++ t ++ post) =
  occs b pre ++ map (Nat.add (length pre)) (occs b t)
  ++ map (Nat.add (length pre + length t)) (occs b post).
Proof.
  intros Hr Hl. rewrite app_assoc, occs_app_right by exact Hr.
  rewrite occs_app_left by exact Hl. rewrite length_app, <- app_assoc. reflexivity.
Qed.

End Crossing.

(** ** What a replacement does to the occurrences of another text *)

Section Moved.

Variables old new : str.
Hypothesis old_nonempty : old <> [].

Let rep := str_replace old new.

Lemma first_match_partial (pre : str) (k : nat) :
  first_match old pre -> k < length old ->
  occs old (pre ++ firstn k old) = [].
Proof.
  intros Hf Hk.
  destruct (occs old (pre ++ firstn k old)) as [|i l] eqn:E; [reflexivity|].
  assert (In i (occs old (pre ++ firstn k old))) as HI by (rewrite E; left; reflexivity).
  pose proof (occs_In_length _ _ _ HI) as HL.
  apply occs_In_app_l with (y := skipn k old) in HI.
  rewrite <- app_assoc, firstn_skipn in HI. rewrite Hf in HI.
  destruct HI as [<-|[]].
  rewrite length_app, length_firstn in HL. lia.
Qed.

Lemma apart_spec (b : str) :
  apart old new b = true ->
  b <> [] /\ no_cross_right old b = true /\ no_cross_right new b = true /\
  no_cross_left b old = true /\ no_cross_left b new = true /\
  occs b old = occs b new.
Proof.
  unfold apart. intros H. repeat (apply andb_true_iff in H; destruct H as [H ?]).
  destruct (list_eq_dec Nat.eq_dec (occs b old) (occs b new)); [|discriminate].
  repeat split; try assumption. destruct b; [discriminate|congruence].
Qed.

(** Every occurrence of [b] after the rewrite is an occurrence before it,
    moved by what the rewrite did to the text in front of it; nothing is
    lost and nothing appears. *)
Lemma occs_replace_moved (b : str) :
  apart old new b = true ->
  forall s,
    occs b (rep s) = map (fun i => length (rep (firstn i s))) (occs b s).
Proof.
  intros Hap. apply apart_spec in Hap.
  destruct Hap as (Hb & Hro & Hrn & Hlo & Hln & Heq).
  induction s as [s H|pre post Hf IH] using (scan_ind old old_nonempty).
  - unfold rep. rewrite (str_replace_none old new old_nonempty s H).
    rewrite <- (map_id (occs b s)) at 1. apply map_ext_in. intros i Hi.
    rewrite (str_replace_none old new old_nonempty).
    + apply occs_In in Hi. rewrite length_firstn. lia.
    + apply occs_nil_firstn. exact H.
  - unfold rep. rewrite (str_replace_first old new old_nonempty) by exact Hf.
    fold rep.
    rewrite (occs_three b Hb pre new (rep post) Hrn Hln).
    rewrite (occs_three b Hb pre old post Hro Hlo).
    rewrite !map_app, !map_map. rewrite IH, map_map, <- Heq.
    f_equal; [|f_equal].
    + rewrite <- (map_id (occs b pre)) at 1. apply map_ext_in. intros i Hi.
      apply occs_In in Hi. destruct Hi as [Hi _].
      rewrite firstn_app. replace (i - length pre) with 0 by lia.
      simpl firstn. rewrite app_nil_r.
      unfold rep. rewrite (str_replace_none old new old_nonempty).
      * rewrite length_firstn. lia.
      * apply occs_nil_firstn. apply (first_match_no_occ old old_nonempty). exact Hf.
    + apply map_ext_in. intros k Hk.
      apply occs_In_length in Hk.
      assert (k < length old) as Hlt by (destruct b; [congruence|simpl in Hk; lia]).
      rewrite firstn_app. rewrite firstn_all2 by lia.
      replace (length pre + k - length pre) with k by lia.
      rewrite firstn_app. replace (k - length old) with 0 by lia.
      simpl firstn. rewrite app_nil_r.
      unfold rep. rewrite (str_replace_none old new old_nonempty).
      * rewrite length_app, length_firstn. lia.
      * apply first_match_partial; assumption.
    + apply map_ext_in. intros j Hj.
      rewrite firstn_app. rewrite (firstn_all2 pre) by lia.
      replace (length pre + length old + j - length pre) with (length old + j) by lia.
      rewrite firstn_app. rewrite (firstn_all2 old) by lia.
      replace (length old + j - length old) with j by lia.
      unfold rep. rewrite (str_replace_first old new old_nonempty) by exact Hf.
      rewrite !length_app. lia.
Qed.

Lemma occs_replace_count (b : str) :
  apart old new b = true ->
  forall s, length (occs b (rep s)) = length (occs b s).
Proof.
  intros Hap s. rewrite (occs_replace_moved b Hap). apply length_map.
Qed.

Lemma contains_replace (b : str) :
  apart old new b = true ->
  forall s, contains b (rep s) = contains b s.
Proof.
  intros Hap s. pose proof (occs_replace_count b Hap s) as H.
  unfold contains. destruct (occs b (rep s)), (occs b s); simpl in H; congruence.
Qed.

(** When the replacement hides the anchor, nothing is left to match. *)
Lemma occs_replace_consumed :
  consumed old new = true -> forall s, occs old (rep s) = [].
Proof.
  unfold consumed. intros H.
  repeat (apply andb_true_iff in H; destruct H as [H ?]).
  destruct (list_eq_dec Nat.eq_dec (occs old new) []) as [Hn|]; [|discriminate].
  induction s as [s Hs|pre post Hf IH] using (scan_ind old old_nonempty).
  - unfold rep. rewrite (str_replace_none old new old_nonempty s Hs). exact Hs.
  - unfold rep. rewrite (str_replace_first old new old_nonempty) by exact Hf.
    fold rep. rewrite (occs_three old old_nonempty) by assumption.
    rewrite IH, Hn. rewrite (first_match_no_occ old old_nonempty pre Hf). reflexivity.
Qed.

Lemma str_replace_idempotent :
  consumed old new = true -> forall s, rep (rep s) = rep s.
Proof.
  intros H s. apply (str_replace_none old new old_nonempty).
  apply occs_replace_consumed. exact H.
Qed.

(** The first match is replaced and so is every later one. *)
Lemma str_replace_contains (s : str) :
  contains old s = true -> contains new (rep s) = true.
Proof.
  intros H. destruct (first_match_cases old old_nonempty s) as [Hn|(pre & post & -> & Hf)].
  - apply contains_false in Hn. congruence.
  - unfold rep. rewrite (str_replace_first old new old_nonempty) by exact Hf.
    apply contains_true. eexists _, _. reflexivity.
Qed.

End Moved.

(** ** The pattern and template of step 2 *)

Section Regex.

Lemma strip_prefix_app_l (p q s : str) :
  strip_prefix (p ++ q) s =
  match strip_prefix p s with
  | Some s' => strip_prefix q s'
  | None => None
  end.
Proof.
  revert s. induction p as [|x p IH]; intros s; simpl; [reflexivity|].
  destruct s as [|y s]; [reflexivity|].
  destruct (Ascii.eqb x y); [apply IH|reflexivity].
Qed.

(** In the fragment a match is a match of the pattern's text, and the
    groups capture their bodies. *)
Lemma match_at_literal (p : pattern) (s : str) :
  match_at p s =
  match strip_prefix (pat_text p) s with
  | Some rest => Some (pat_groups p, rest)
  | None => None
  end.
Proof.
  revert s. induction p as [|[c|body] p IH]; intros s; simpl.
  - reflexivity.
  - destruct s as [|d s]; [reflexivity|].
    destruct (Ascii.eqb c d); [apply IH|reflexivity].
  - rewrite strip_prefix_app_l.
    destruct (strip_prefix body s) as [s'|]; [|reflexivity].
    rewrite IH. destruct (strip_prefix (pat_text p) s'); reflexivity.
Qed.

Lemma regex_matcher_literal (p : pattern) (t : list tmpl_item) (s : str) :
  regex_matcher p t s = literal_matcher (pat_text p) (expand t (pat_groups p)) s.
Proof.
  unfold regex_matcher, literal_matcher. rewrite match_at_literal.
  destruct (strip_prefix (pat_text p) s); reflexivity.
Qed.

Lemma re_sub_literal (pat repl : str) (p : pattern) (t : list tmpl_item) :
  re_compile pat = Some p -> parse_template repl = Some t ->
  valid_refs (group_count p) t = true ->
  forall s,
    re_sub pat repl s = Some (str_replace (pat_text p) (expand t (pat_groups p)) s).
Proof.
  intros Hp Ht Hv s. unfold re_sub. rewrite Hp, Ht, Hv. f_equal.
  apply sub_all_ext. intros x. apply regex_matcher_literal.
Qed.

(** Step 2 never raises, and it is the replacement of [tools_anchor] by
    [tools_replacement]. *)
Lemma add_tools_replace (s : str) :
  add_tools s = Some (apply_region tools_region s).
Proof.
  unfold add_tools.
  destruct (re_compile tools_pattern) as [p|] eqn:Hp; [|discriminate].
  destruct (parse_template tools_repl) as [t|] eqn:Ht; [|discriminate].
  rewrite (re_sub_literal _ _ p t Hp Ht).
  - vm_compute in Hp. vm_compute in Ht.
    injection Hp as <-. injection Ht as <-. reflexivity.
  - vm_compute in Hp. vm_compute in Ht.
    injection Hp as <-. injection Ht as <-. reflexivity.
Qed.

Lemma augment_augmented (s : str) : augment s = Some (augmented s).
Proof. unfold augment. rewrite add_tools_replace. reflexivity. Qed.

End Regex.

(** ** One occurrence, and the size of the result *)

Section Once.

Variables old new : str.
Hypothesis old_nonempty : old <> [].

Let rep := str_replace old new.

Lemma occs_In_app_r (p x y : str) (j : nat) :
  In j (occs p y) -> In (length x + j) (occs p (x ++ y)).
Proof.
  intros H. apply occs_In in H. destruct H as [H1 H2]. apply occs_In.
  rewrite length_app. split; [lia|].
  rewrite skipn_app. rewrite skipn_all2 by lia.
  replace (length x + j - length x) with j by lia. exact H2.
Qed.

Lemma occs_In_mid (pre post : str) :
  In (length pre) (occs old (pre ++ old ++ post)).
Proof.
  rewrite <- (Nat.add_0_r (length pre)). apply occs_In_app_r.
  apply occs_In. simpl. split; [lia|apply startswith_app_self].
Qed.

(** With the anchor at exactly one place the rewrite is one splice. *)
Lemma str_replace_once (s : str) :
  length (occs old s) = 1 ->
  exists pre post, s = pre ++ old ++ post /\ rep s = pre ++ new ++ post.
Proof.
  intros H1.
  destruct (first_match_cases old old_nonempty s) as [Hn|(pre & post & -> & Hf)].
  - rewrite Hn in H1. discriminate.
  - exists pre, post. split; [reflexivity|].
    unfold rep. rewrite (str_replace_first old new old_nonempty) by exact Hf.
    rewrite (str_replace_none old new old_nonempty post); [reflexivity|].
    destruct (occs old post) as [|j l] eqn:E; [reflexivity|]. exfalso.
    assert (In j (occs old post)) as Hj by (rewrite E; left; reflexivity).
    apply (occs_In_app_r old (pre ++ old)) in Hj. rewrite <- app_assoc in Hj.
    pose proof (occs_In_mid pre post) as Hm.
    destruct (occs old (pre ++ old ++ post)) as [|a [|a' l']]; try discriminate.
    destruct Hj as [Hj|[]], Hm as [Hm|[]]. subst a.
    rewrite length_app in Hm. destruct old; [congruence|simpl in Hm; lia].
Qed.

Lemma str_replace_length (s : str) :
  length old <= length new -> length s <= length (rep s).
Proof.
  intros Hl.
  induction s as [s H|pre post Hf IH] using (scan_ind old old_nonempty).
  - unfold rep. rewrite (str_replace_none old new old_nonempty s H). lia.
  - unfold rep. rewrite (str_replace_first old new old_nonempty) by exact Hf.
    fold rep. rewrite !length_app. lia.
Qed.

Lemma str_replace_grows (s : str) :
  length old < length new -> contains old s = true ->
  length s < length (rep s).
Proof.
  intros Hl Hc.
  destruct (first_match_cases old old_nonempty s) as [Hn|(pre & post & -> & Hf)].
  - apply contains_false in Hn. congruence.
  - unfold rep. rewrite (str_replace_first old new old_nonempty) by exact Hf.
    pose proof (str_replace_length post) as Hp.
    fold rep. rewrite !length_app. lia.
Qed.

End Once.

Lemma contains_trans (a b c : str) :
  contains a b = true -> contains b c = true -> contains a c = true.
Proof.
  intros H1 H2. apply contains_true in H1. apply contains_true in H2.
  destruct H1 as (u1 & v1 & ->). destruct H2 as (u2 & v2 & ->).
  apply contains_true. exists (u2 ++ u1), (v1 ++ v2).
  rewrite <- !app_assoc. reflexivity.
Qed.

(** ** The regions of the script *)

Section Regions.

Lemma import_anchor_nonempty : import_anchor <> [].
Proof. discriminate. Qed.

Lemma tools_anchor_nonempty : tools_anchor <> [].
Proof. discriminate. Qed.

Lemma write_anchor_nonempty : write_anchor <> [].
Proof. discriminate. Qed.

Lemma add_import_region (s : str) : add_import s = apply_region import_region s.
Proof. reflexivity. Qed.

Lemma add_write_ops_region (s : str) : add_write_ops s = apply_region write_region s.
Proof. reflexivity. Qed.

(** The checks below are closed computations on the script's literals. *)
Lemma import_apart_tools :
  apart import_anchor import_replacement tools_anchor = true.
Proof. vm_compute. reflexivity. Qed.

Lemma import_apart_write :
  apart import_anchor import_replacement write_anchor = true.
Proof. vm_compute. reflexivity. Qed.

Lemma tools_apart_write :
  apart tools_anchor tools_replacement write_anchor = true.
Proof. vm_compute. reflexivity. Qed.

Lemma write_apart_tools :
  apart write_anchor write_replacement tools_anchor = true.
Proof. vm_compute. reflexivity. Qed.

Lemma import_apart_import :
  apart import_anchor import_replacement import_anchor = true.
Proof. vm_compute. reflexivity. Qed.

Lemma tools_apart_import :
  apart tools_anchor tools_replacement import_anchor = true.
Proof. vm_compute. reflexivity. Qed.

Lemma write_apart_import :
  apart write_anchor write_replacement import_anchor = true.
Proof. vm_compute. reflexivity. Qed.

Lemma write_apart_tools_addition :
  apart write_anchor write_replacement tools_addition = true.
Proof. vm_compute. reflexivity. Qed.

Lemma tools_apart_import_statement :
  apart tools_anchor tools_replacement import_statement = true.
Proof. vm_compute. reflexivity. Qed.

Lemma write_apart_import_statement :
  apart write_anchor write_replacement import_statement = true.
Proof. vm_compute. reflexivity. Qed.

Lemma import_apart_write_ops :
  apart import_anchor import_replacement write_ops = true.
Proof. vm_compute. reflexivity. Qed.

Lemma tools_apart_write_ops :
  apart tools_anchor tools_replacement write_ops = true.
Proof. vm_compute. reflexivity. Qed.

Lemma tools_consumed : consumed tools_anchor tools_replacement = true.
Proof. vm_compute. reflexivity. Qed.

Lemma write_consumed : consumed write_anchor write_replacement = true.
Proof. vm_compute. reflexivity. Qed.

Lemma block_in_replacement (r : region) :
  In r [import_region; tools_region; write_region] ->
  contains (block r) (replacement r) = true.
Proof.
  intros [<-|[<-|[<-|[]]]]; vm_compute; reflexivity.
Qed.

End Regions.

(** ** The run of the script *)

Section Run.

Lemma main_read_failure (w : world) :
  file w = None \/ readable w = false ->
  main w =
  (inr FileAccessError,
   {| file := file w; readable := readable w; writable := writable w;
      linesep := linesep w; stdout := stdout w;
      log := log w ++ [EvOpenRead] |}).
Proof.
  intros H. unfold main, read_text, bind, record. cbn [file readable].
  destruct H as [H|H]; rewrite H; [reflexivity|].
  destruct (file w); reflexivity.
Qed.

Lemma main_decode_failure (w : world) (bytes : str) :
  file w = Some bytes -> readable w = true -> decode_text bytes = None ->
  main w =
  (inr DecodeError,
   {| file := file w; readable := readable w; writable := writable w;
      linesep := linesep w; stdout := stdout w;
      log := log w ++ [EvOpenRead] |}).
Proof.
  intros Hf Hr Hd. unfold main, read_text, bind, record. cbn [file readable].
  rewrite Hf, Hr, Hd. reflexivity.
Qed.

Lemma main_write_failure (w : world) (bytes content : str) :
  file w = Some bytes -> readable w = true ->
  decode_text bytes = Some content -> writable w = false ->
  main w =
  (inr FileAccessError,
   {| file := file w; readable := true; writable := false;
      linesep := linesep w; stdout := stdout w;
      log := log w ++ [EvOpenRead] ++ [EvOpenWrite] |}).
Proof.
  intros Hf Hr Hd Hw.
  unfold main, read_text, write_text, from_re, bind, record, raise, ret.
  cbn [file readable writable linesep stdout log]. rewrite Hf, Hr, Hd.
  rewrite add_tools_replace. cbn [file readable writable linesep stdout log].
  rewrite Hw. rewrite <- app_assoc. reflexivity.
Qed.

Lemma main_success (w : world) (bytes content : str) :
  file w = Some bytes -> readable w = true ->
  decode_text bytes = Some content -> writable w = true ->
  main w =
  (inl tt,
   {| file := Some (encode_text (linesep w) (augmented content));
      readable := true; writable := true; linesep := linesep w;
      stdout := stdout w ++ summary;
      log := log w ++
             [EvOpenRead; EvOpenWrite; EvWrite (augmented content)] ++
             map EvPrint summary |}).
Proof.
  intros Hf Hr Hd Hw.
  unfold main, read_text, write_text, print, set_file, from_re, bind, record, raise, ret.
  cbn [file readable writable linesep stdout log]. rewrite Hf, Hr, Hd.
  rewrite add_tools_replace. cbn [file readable writable linesep stdout log].
  rewrite Hw. cbn [file readable writable linesep stdout log].
  rewrite <- !app_assoc. reflexivity.
Qed.

(** A run either succeeds and prints the summary, or fails and prints
    nothing; it succeeds exactly when the file is there, may be read, holds
    well-formed UTF-8 and may be written. *)
Lemma main_cases (w : world) :
  (exists bytes content,
     file w = Some bytes /\ readable w = true /\
     decode_text bytes = Some content /\ writable w = true /\
     fst (main w) = inl tt /\
     file (snd (main w)) = Some (encode_text (linesep w) (augmented content)) /\
     stdout (snd (main w)) = stdout w ++ summary) \/
  (exists e,
     fst (main w) = inr e /\ e <> ReError /\
     file (snd (main w)) = file w /\
     stdout (snd (main w)) = stdout w /\
     (file w = None \/ readable w = false \/ writable w = false \/
      exists bytes, file w = Some bytes /\ decode_text bytes = None)).
Proof.
  destruct (file w) as [bytes|] eqn:Hf.
  - destruct (readable w) eqn:Hr.
    + destruct (decode_text bytes) as [content|] eqn:Hd.
      * destruct (writable w) eqn:Hw.
        -- left. exists bytes, content.
           rewrite (main_success w bytes content Hf Hr Hd Hw). repeat split.
           exact Hd.
        -- right. exists FileAccessError.
           rewrite (main_write_failure w bytes content Hf Hr Hd Hw).
           cbn [fst snd file stdout]. repeat split; try discriminate; try assumption.
           right. right. left. reflexivity.
      * right. exists DecodeError.
        rewrite (main_decode_failure w bytes Hf Hr Hd).
        cbn [fst snd file stdout]. repeat split; try discriminate; try assumption.
        right. right. right. exists bytes. split; [reflexivity|exact Hd].
    + right. exists FileAccessError.
      rewrite (main_read_failure w (or_intror Hr)).
      cbn [fst snd file stdout]. repeat split; try discriminate; try assumption.
      right. left. reflexivity.
  - right. exists FileAccessError.
    rewrite (main_read_failure w (or_introl Hf)).
    cbn [fst snd file stdout]. repeat split; try discriminate; try assumption.
    left. reflexivity.
Qed.

End Run.

(** ** Further properties of the script *)

Section Distribution.

Variables old new : str.
Hypothesis old_nonempty : old <> [].

Let rep := str_replace old new.

(** The scan of [x ++ y] is the scan of [x] followed by the scan of [y]
    when no match can begin in [x] and end in [y]. *)
Lemma str_replace_app (x y : str) :
  (forall x1 x2, x = x1 ++ x2 -> x2 <> [] ->
     startswith old (x2 ++ y) = startswith old x2) ->
  rep (x ++ y) = rep x ++ rep y.
Proof.
  remember (length x) as n eqn:Hn. revert x Hn.
  induction n as [n IH] using lt_wf_ind. intros x Hn Hx.
  destruct x as [|c x].
  - simpl. unfold rep. rewrite (str_replace_nil old new old_nonempty). reflexivity.
  - destruct (startswith old (c :: x)) eqn:E.
    + apply startswith_true in E. destruct E as [r Hr].
      rewrite Hr, <- app_assoc. unfold rep.
      rewrite !(str_replace_match old new old_nonempty). fold rep.
      rewrite <- app_assoc. f_equal.
      apply (IH (length r)); [| reflexivity |].
      * subst n. rewrite Hr, length_app. destruct old; [congruence|simpl; lia].
      * intros x1 x2 Hx1 Hx2. apply (Hx (old ++ x1) x2); [|exact Hx2].
        rewrite Hr, Hx1, app_assoc. reflexivity.
    + unfold rep. simpl app. rewrite !(str_replace_skip old new).
      * fold rep. simpl. f_equal.
        apply (IH (length x)); [subst n; simpl; lia | reflexivity |].
        intros x1 x2 Hx1 Hx2. apply (Hx (c :: x1) x2); [|exact Hx2].
        rewrite Hx1. reflexivity.
      * exact E.
      * rewrite <- E. apply (Hx [] (c :: x)); [reflexivity|discriminate].
Qed.

Lemma str_replace_app_right (t u v : str) :
  no_cross_right t old = true ->
  rep ((u ++ t) ++ v) = rep (u ++ t) ++ rep v.
Proof.
  intros Hc. apply str_replace_app. intros x1 x2 Hx Hne.
  apply (no_cross_right_sound old t u x1 x2 v Hc Hx Hne).
Qed.

Lemma str_replace_app_left (x y : str) :
  no_cross_left old y = true ->
  rep (x ++ y) = rep x ++ rep y.
Proof.
  intros Hc. apply str_replace_app. intros x1 x2 _ Hne.
  apply (no_cross_left_sound old y x2 Hc Hne).
Qed.

(** Around a text [t] that no match can enter or leave and that holds no
    match itself, the scan works on both sides separately. *)
Lemma str_replace_around (pre t post : str) :
  no_cross_right t old = true -> no_cross_left old t = true ->
  occs old t = [] ->
  rep (pre ++ t ++ post) = rep pre ++ t ++ rep post.
Proof.
  intros Hr Hl Ht. rewrite app_assoc, str_replace_app_right by exact Hr.
  rewrite str_replace_app_left by exact Hl.
  unfold rep at 2. rewrite (str_replace_none old new old_nonempty t Ht).
  rewrite <- app_assoc. reflexivity.
Qed.

(** Without overlapping occurrences, each occurrence is one match, and
    each match trades the anchor for the replacement. *)
Lemma str_replace_length_exact (s : str) :
  border_free old = true ->
  length (rep s) + length old * length (occs old s) =
  length s + length new * length (occs old s).
Proof.
  unfold border_free. intros H.
  repeat (apply andb_true_iff in H; destruct H as [H ?]).
  induction s as [s Hs|pre post Hf IH] using (scan_ind old old_nonempty).
  - unfold rep. rewrite (str_replace_none old new old_nonempty s Hs), Hs.
    simpl. lia.
  - unfold rep. rewrite (str_replace_first old new old_nonempty) by exact Hf.
    fold rep. rewrite (occs_three old old_nonempty) by assumption.
    rewrite (first_match_no_occ old old_nonempty pre Hf).
    rewrite (occs_self old old_nonempty).
    simpl. rewrite !length_app, !length_map. nia.
Qed.

End Distribution.

Section Commute.

Variables a1 r1 a2 r2 : str.
Hypothesis a1_nonempty : a1 <> [].
Hypothesis a2_nonempty : a2 <> [].
Hypothesis indep : independent a1 r1 a2 r2 = true.

Let I := str_replace a1 r1.
Let L := str_replace a2 r2.

Lemma independent_spec :
  apart a1 r1 a2 = true /\ apart a2 r2 a1 = true /\
  occs a2 a1 = [] /\ occs a2 r1 = [].
Proof.
  pose proof indep as H. unfold independent in H.
  apply andb_true_iff in H. destruct H as [H _].
  apply andb_true_iff in H. destruct H as [H Hn].
  apply andb_true_iff in H. destruct H as [H12 H21].
  assert (occs a2 a1 = []) as E.
  { unfold no_occ in Hn. destruct (occs a2 a1); [reflexivity|discriminate]. }
  repeat split; try assumption.
  pose proof (apart_spec _ _ _ H12) as (_ & _ & _ & _ & _ & Heq).
  rewrite <- Heq. exact E.
Qed.

Lemma first_match_carried (pre : str) :
  first_match a1 pre -> first_match a1 (L pre).
Proof.
  destruct independent_spec as (H12 & H21 & E1 & E2).
  pose proof (apart_spec _ _ _ H12) as (_ & Hro & _ & Hlo & _ & _).
  intros Hf. unfold first_match in *.
  assert (L (pre ++ a1) = L pre ++ a1) as Ed.
  { pose proof (str_replace_around a2 r2 a2_nonempty pre a1 [] Hro Hlo E1) as Hd.
    rewrite (str_replace_nil a2 r2 a2_nonempty) in Hd.
    rewrite !app_nil_r in Hd. exact Hd. }
  rewrite <- Ed. unfold L.
  rewrite (occs_replace_moved a2 r2 a2_nonempty a1 H21). rewrite Hf. simpl.
  rewrite firstn_app, firstn_all, Nat.sub_diag. simpl. rewrite app_nil_r.
  reflexivity.
Qed.

(** Two rewrites that cannot interfere give the same text in either
    order. *)
Lemma str_replace_commute (s : str) : I (L s) = L (I s).
Proof.
  destruct independent_spec as (H12 & H21 & E1 & E2).
  pose proof (apart_spec _ _ _ H12) as (_ & Hro & Hrn & Hlo & Hln & _).
  induction s as [s Hs|pre post Hf IH] using (scan_ind a1 a1_nonempty).
  - unfold I at 2. rewrite (str_replace_none a1 r1 a1_nonempty s Hs).
    apply (str_replace_none a1 r1 a1_nonempty).
    pose proof (occs_replace_count a2 r2 a2_nonempty a1 H21 s) as Hc.
    rewrite Hs in Hc. fold L in Hc. destruct (occs a1 (L s)); [reflexivity|discriminate].
  - unfold I at 2. rewrite (str_replace_first a1 r1 a1_nonempty) by exact Hf.
    fold I. unfold L at 2.
    rewrite (str_replace_around a2 r2 a2_nonempty pre r1 (I post) Hrn Hln E2).
    unfold L at 1.
    rewrite (str_replace_around a2 r2 a2_nonempty pre a1 post Hro Hlo E1).
    fold L. unfold I at 1.
    rewrite (str_replace_first a1 r1 a1_nonempty) by (apply first_match_carried; exact Hf).
    fold I. rewrite IH. reflexivity.
Qed.

End Commute.

Section ScriptFacts.

Lemma import_tools_independent :
  independent import_anchor import_replacement tools_anchor tools_replacement = true.
Proof. vm_compute. reflexivity. Qed.

Lemma import_write_independent :
  independent import_anchor import_replacement write_anchor write_replacement = true.
Proof. vm_compute. reflexivity. Qed.

Lemma tools_write_independent :
  independent tools_anchor tools_replacement write_anchor write_replacement = true.
Proof. vm_compute. reflexivity. Qed.

Lemma write_import_independent :
  independent write_anchor write_replacement import_anchor import_replacement = true.
Proof. vm_compute. reflexivity. Qed.

Lemma tools_import_independent :
  independent tools_anchor tools_replacement import_anchor import_replacement = true.
Proof. vm_compute. reflexivity. Qed.

Lemma import_crossfree_statement :
  crossfree import_anchor import_replacement import_statement = true.
Proof. vm_compute. reflexivity. Qed.

Lemma import_border_free : border_free import_anchor = true.
Proof. vm_compute. reflexivity. Qed.

Lemma tools_border_free : border_free tools_anchor = true.
Proof. vm_compute. reflexivity. Qed.

Lemma write_border_free : border_free write_anchor = true.
Proof. vm_compute. reflexivity. Qed.

Lemma add_import_length (s : str) :
  length (add_import s) = length s + 264 * length (occs import_anchor s).
Proof.
  pose proof (str_replace_length_exact import_anchor import_replacement
                import_anchor_nonempty s import_border_free) as H.
  change (length import_anchor) with 32 in H.
  change (length import_replacement) with 296 in H.
  unfold add_import. lia.
Qed.

Lemma tools_length (s : str) :
  length (apply_region tools_region s) =
  length s + 257 * length (occs tools_anchor s).
Proof.
  pose proof (str_replace_length_exact tools_anchor tools_replacement
                tools_anchor_nonempty s tools_border_free) as H.
  change (length tools_anchor) with 22 in H.
  change (length tools_replacement) with 279 in H.
  unfold apply_region. cbn [anchor replacement tools_region]. lia.
Qed.

Lemma add_write_ops_length (s : str) :
  length (add_write_ops s) = length s + 237 * length (occs write_anchor s).
Proof.
  pose proof (str_replace_length_exact write_anchor write_replacement
                write_anchor_nonempty s write_border_free) as H.
  change (length write_anchor) with 29 in H.
  change (length write_replacement) with 266 in H.
  unfold add_write_ops. lia.
Qed.

Lemma augmented_length (s : str) :
  length (augmented s) =
  length s + 264 * length (occs import_anchor s)
  + 257 * length (occs tools_anchor s)
  + 237 * length (occs write_anchor s).
Proof.
  unfold augmented.
  change (apply_region write_region) with add_write_ops.
  change (apply_region import_region) with add_import.
  rewrite add_write_ops_length, tools_length, add_import_length.
  unfold apply_region. cbn [anchor replacement tools_region].
  rewrite (occs_replace_count _ _ tools_anchor_nonempty _ tools_apart_write).
  unfold add_import.
  rewrite (occs_replace_count _ _ import_anchor_nonempty _ import_apart_write).
  rewrite (occs_replace_count _ _ import_anchor_nonempty _ import_apart_tools).
  lia.
Qed.

End ScriptFacts.

Section Repetition.

Lemma length_0_nil (l : list nat) : length l = 0 -> l = [].
Proof. destruct l; [reflexivity|discriminate]. Qed.

Lemma augmented_clear (s : str) : clear (augmented s).
Proof.
  unfold clear, augmented, apply_region. cbn [anchor replacement import_region tools_region write_region].
  split.
  - apply length_0_nil.
    rewrite (occs_replace_count _ _ write_anchor_nonempty _ write_apart_tools).
    rewrite (occs_replace_consumed _ _ tools_anchor_nonempty tools_consumed).
    reflexivity.
  - apply (occs_replace_consumed _ _ write_anchor_nonempty write_consumed).
Qed.

Lemma add_import_clear (x : str) : clear x -> clear (add_import x).
Proof.
  intros [Ht Hw]. unfold clear, add_import. split; apply length_0_nil.
  - rewrite (occs_replace_count _ _ import_anchor_nonempty _ import_apart_tools).
    rewrite Ht. reflexivity.
  - rewrite (occs_replace_count _ _ import_anchor_nonempty _ import_apart_write).
    rewrite Hw. reflexivity.
Qed.

Lemma augmented_of_clear (x : str) : clear x -> augmented x = add_import x.
Proof.
  intros Hx. destruct (add_import_clear x Hx) as [Ht Hw].
  unfold augmented, apply_region. cbn [anchor replacement import_region tools_region write_region].
  fold (add_import x).
  rewrite (str_replace_none _ _ tools_anchor_nonempty _ Ht).
  apply (str_replace_none _ _ write_anchor_nonempty _ Hw).
Qed.

Lemma iter_import_clear (k : nat) (x : str) :
  clear x -> clear (Nat.iter k add_import x).
Proof.
  intros Hx. induction k as [|k IH]; [exact Hx|].
  rewrite Nat.iter_succ. apply add_import_clear. exact IH.
Qed.

Lemma augmented_iter (k : nat) (s : str) :
  Nat.iter (S k) augmented s = Nat.iter k add_import (augmented s).
Proof.
  induction k as [|k IH]; [reflexivity|].
  rewrite Nat.iter_succ, IH. rewrite (Nat.iter_succ k).
  apply augmented_of_clear. apply iter_import_clear. apply augmented_clear.
Qed.

Lemma augment_n_iter (k : nat) (s : str) :
  augment_n k s = Some (Nat.iter k augmented s).
Proof.
  induction k as [|k IH]; [reflexivity|].
  cbn [augment_n]. rewrite IH, augment_augmented, Nat.iter_succ. reflexivity.
Qed.

Lemma add_import_count (x : str) :
  length (occs import_anchor (add_import x)) = length (occs import_anchor x).
Proof.
  apply (occs_replace_count _ _ import_anchor_nonempty _ import_apart_import).
Qed.

Lemma augmented_import_count (s : str) :
  length (occs import_anchor (augmented s)) = length (occs import_anchor s).
Proof.
  unfold augmented, apply_region. cbn [anchor replacement import_region tools_region write_region].
  rewrite (occs_replace_count _ _ write_anchor_nonempty _ write_apart_import).
  rewrite (occs_replace_count _ _ tools_anchor_nonempty _ tools_apart_import).
  apply add_import_count.
Qed.

Lemma iter_import_length (k : nat) (x : str) :
  length (occs import_anchor (Nat.iter k add_import x)) =
    length (occs import_anchor x) /\
  length (Nat.iter k add_import x) =
    length x + 264 * (k * length (occs import_anchor x)).
Proof.
  induction k as [|k [IH1 IH2]]; [simpl; split; lia|].
  rewrite Nat.iter_succ. split.
  - rewrite add_import_count. exact IH1.
  - rewrite add_import_length, IH1, IH2. lia.
Qed.

End Repetition.

Section Lines.

Lemma split_lines_nonempty (s : str) : split_lines s <> [].
Proof.
  destruct s as [|c s]; cbn [split_lines]; [discriminate|].
  destruct (Ascii.eqb c nl); [discriminate|].
  destruct (split_lines s); discriminate.
Qed.

Lemma join_split_lines (s : str) : join [nl] (split_lines s) = s.
Proof.
  induction s as [|c s IH]; [reflexivity|].
  pose proof (split_lines_nonempty s) as Hne.
  cbn [split_lines]. destruct (Ascii.eqb c nl) eqn:E.
  - apply Ascii.eqb_eq in E. subst c.
    destruct (split_lines s) as [|l ls]; [congruence|].
    rewrite join_cons2, IH. reflexivity.
  - destruct (split_lines s) as [|l ls]; [congruence|].
    destruct ls as [|l' ls].
    + simpl in *. rewrite IH. reflexivity.
    + rewrite join_cons2 in *. rewrite <- IH. reflexivity.
Qed.

(** No import line reaches over a line break, so the import rewrite of a
    text is the rewrite of its lines. *)
Lemma add_import_join (ls : list str) :
  add_import (join [nl] ls) = join [nl] (map add_import ls).
Proof.
  induction ls as [|x [|y l] IH].
  - apply (str_replace_nil _ _ import_anchor_nonempty).
  - reflexivity.
  - rewrite join_cons2. cbn [map] in *. rewrite join_cons2, <- IH.
    apply (str_replace_around _ _ import_anchor_nonempty); vm_compute; reflexivity.
Qed.

End Lines.

Section Placement.

Lemma import_replacement_border_free : border_free import_replacement = true.
Proof. vm_compute. reflexivity. Qed.

Lemma import_replacement_nonempty : import_replacement <> [].
Proof. discriminate. Qed.

Lemma occs_replacement_anchor (s : str) (k : nat) :
  In k (occs import_replacement s) -> In k (occs import_anchor s).
Proof.
  intros H. apply occs_In in H. destruct H as [H1 H2]. apply occs_In.
  split; [exact H1|].
  apply startswith_true in H2. destruct H2 as [r Hr]. rewrite Hr.
  apply startswith_true. exists ((nl :: import_statement) ++ r).
  unfold import_replacement. rewrite <- !app_assoc. reflexivity.
Qed.

(** After the import rewrite the import line stands nowhere but at the head
    of a copy of the replacement. *)
Lemma import_anchor_followed (s : str) :
  occs import_anchor (add_import s) = occs import_replacement (add_import s).
Proof.
  pose proof import_border_free as Ha. pose proof import_replacement_border_free as Hr.
  unfold border_free in Ha, Hr.
  apply andb_true_iff in Ha. destruct Ha as [Ha Ha3].
  apply andb_true_iff in Ha. destruct Ha as [_ Ha2].
  apply andb_true_iff in Hr. destruct Hr as [Hr Hr3].
  apply andb_true_iff in Hr. destruct Hr as [_ Hr2].
  pose proof (apart_spec _ _ _ import_apart_import) as (_ & _ & Hrn & _ & Hln & Heq).
  unfold add_import.
  induction s as [s Hs|pre post Hf IH] using (scan_ind import_anchor import_anchor_nonempty).
  - rewrite (str_replace_none _ _ import_anchor_nonempty s Hs), Hs.
    destruct (occs import_replacement s) as [|k l] eqn:E; [reflexivity|].
    assert (In k (occs import_anchor s)) as HI.
    { apply occs_replacement_anchor. rewrite E. left. reflexivity. }
    rewrite Hs in HI. destruct HI.
  - rewrite (str_replace_first _ _ import_anchor_nonempty) by exact Hf.
    rewrite (occs_three _ import_anchor_nonempty _ _ _ Hrn Hln).
    rewrite (occs_three _ import_replacement_nonempty _ _ _ Hr2 Hr3).
    rewrite IH, <- Heq.
    rewrite (occs_self _ import_anchor_nonempty).
    rewrite (occs_self _ import_replacement_nonempty).
    f_equal.
    pose proof (first_match_no_occ _ import_anchor_nonempty pre Hf) as Hp.
    rewrite Hp.
    destruct (occs import_replacement pre) as [|k l] eqn:E; [reflexivity|].
    assert (In k (occs import_anchor pre)) as HI.
    { apply occs_replacement_anchor. rewrite E. left. reflexivity. }
    rewrite Hp in HI. destruct HI.
Qed.

End Placement.

Section Counting.

Variables old new : str.
Hypothesis old_nonempty : old <> [].

Let rep := str_replace old new.

(** Where occurrences of [b] cannot cross the edges of the anchor and of
    the replacement, each match trades the occurrences of [b] inside the
    anchor for those inside the replacement. *)
Lemma occs_replace_count_gen (b : str) (s : str) :
  border_free old = true -> crossfree old new b = true ->
  length (occs b (rep s)) + length (occs old s) * length (occs b old) =
  length (occs b s) + length (occs old s) * length (occs b new).
Proof.
  unfold border_free, crossfree. intros Hb Hc.
  apply andb_true_iff in Hb. destruct Hb as [Hb Hb3].
  apply andb_true_iff in Hb. destruct Hb as [_ Hb2].
  apply andb_true_iff in Hc. destruct Hc as [Hc Hln].
  apply andb_true_iff in Hc. destruct Hc as [Hc Hlo].
  apply andb_true_iff in Hc. destruct Hc as [Hc Hrn].
  apply andb_true_iff in Hc. destruct Hc as [Hne Hro].
  assert (b <> []) as Hbne by (destruct b; [discriminate|congruence]).
  induction s as [s Hs|pre post Hf IH] using (scan_ind old old_nonempty).
  - unfold rep. rewrite (str_replace_none old new old_nonempty s Hs), Hs.
    simpl. lia.
  - unfold rep. rewrite (str_replace_first old new old_nonempty) by exact Hf.
    fold rep.
    rewrite (occs_three b Hbne pre new (rep post) Hrn Hln).
    rewrite (occs_three b Hbne pre old post Hro Hlo).
    rewrite (occs_three old old_nonempty pre old post Hb2 Hb3).
    rewrite (first_match_no_occ old old_nonempty pre Hf).
    rewrite (occs_self old old_nonempty).
    simpl. rewrite !length_app, !length_map. nia.
Qed.

End Counting.

Section SecondImport.

Let I := add_import.

Lemma import_replacement_split :
  import_replacement = import_anchor ++ import_gap /\
  import_replacement = import_head ++ [nl] /\
  import_gap = import_gap_head ++ [nl].
Proof. repeat split; vm_compute; reflexivity. Qed.

Lemma add_import_gap (z : str) : I (import_gap ++ z) = import_gap ++ I z.
Proof.
  unfold I, add_import.
  change (import_gap ++ z) with (([] ++ import_gap) ++ z).
  rewrite (str_replace_app_right _ _ import_anchor_nonempty import_gap [] z)
    by (vm_compute; reflexivity).
  change ([] ++ import_gap) with import_gap.
  rewrite (str_replace_none _ _ import_anchor_nonempty import_gap)
    by (vm_compute; reflexivity).
  reflexivity.
Qed.

(** The second import rewrite puts its text after the same import lines,
    in front of the text the first one put there. *)
Lemma add_import_twice_first (pre post : str) :
  first_match import_anchor pre ->
  I (I (pre ++ import_anchor ++ post)) =
  pre ++ import_replacement ++ import_gap ++ I (I post).
Proof.
  intros Hf. unfold I at 2. unfold add_import.
  rewrite (str_replace_first _ _ import_anchor_nonempty) by exact Hf.
  fold (add_import post). fold I.
  destruct import_replacement_split as (E & _ & _). rewrite E at 1.
  rewrite <- (app_assoc import_anchor).
  unfold I at 1. unfold add_import.
  rewrite (str_replace_first _ _ import_anchor_nonempty) by exact Hf.
  fold (add_import (import_gap ++ I post)). fold I.
  rewrite add_import_gap. reflexivity.
Qed.

(** The second import rewrite neither adds nor removes an occurrence of the
    registration entries, whatever text [h] stands in front. *)
Lemma tools_addition_count_twice (y h : str) :
  length (occs tools_addition (h ++ I (I y))) =
  length (occs tools_addition (h ++ I y)).
Proof.
  assert (tools_addition <> []) as Hb by discriminate.
  destruct import_replacement_split as (_ & E1 & E2).
  revert h.
  induction y as [y Hy|pre post Hf IH] using (scan_ind import_anchor import_anchor_nonempty);
    intros h.
  - unfold I, add_import.
    rewrite !(str_replace_none _ _ import_anchor_nonempty y Hy). reflexivity.
  - rewrite (add_import_twice_first pre post Hf).
    unfold I at 3. unfold add_import.
    rewrite (str_replace_first _ _ import_anchor_nonempty) by exact Hf.
    fold (add_import post). fold I.
    rewrite E1, E2.
    replace (h ++ pre ++ (import_head ++ [nl]) ++ I post)
      with (((h ++ pre) ++ import_head) ++ [nl] ++ I post)
      by (rewrite <- !app_assoc; reflexivity).
    replace (h ++ pre ++ (import_head ++ [nl]) ++ (import_gap_head ++ [nl]) ++ I (I post))
      with ((((h ++ pre) ++ import_head ++ [nl]) ++ import_gap_head) ++ [nl] ++ I (I post))
      by (rewrite <- !app_assoc; reflexivity).
    rewrite (occs_app_right tools_addition Hb import_head (h ++ pre))
      by (vm_compute; reflexivity).
    rewrite (occs_app_right tools_addition Hb import_gap_head)
      by (vm_compute; reflexivity).
    replace (((h ++ pre) ++ import_head ++ [nl]) ++ import_gap_head)
      with (((h ++ pre) ++ import_head) ++ [nl] ++ import_gap_head)
      by (rewrite <- !app_assoc; reflexivity).
    rewrite (occs_app_right tools_addition Hb import_head (h ++ pre))
      by (vm_compute; reflexivity).
    assert (occs tools_addition ([nl] ++ import_gap_head) = []) as E0
      by (vm_compute; reflexivity).
    rewrite E0. rewrite !length_app, !length_map. simpl length.
    pose proof (IH [nl]) as IH1. cbn [app] in IH1. rewrite IH1. lia.
Qed.

(** The import rewrite may as well come last. *)
Lemma augmented_import_last (s : str) :
  augmented s = I (add_write_ops (apply_region tools_region s)).
Proof.
  unfold augmented, apply_region, I, add_import, add_write_ops.
  cbn [anchor replacement import_region tools_region write_region].
  rewrite (str_replace_commute _ _ _ _ tools_anchor_nonempty import_anchor_nonempty
             tools_import_independent).
  apply (str_replace_commute _ _ _ _ write_anchor_nonempty import_anchor_nonempty
           write_import_independent).
Qed.

End SecondImport.

Section CodecFacts.

Lemma utf8_valid_cons (b0 : ascii) (s1 : str) :
  utf8_valid (b0 :: s1) =
  let n := nat_of_ascii b0 in
  if n <? 128 then utf8_valid s1
  else if n <? 194 then false
  else if n <? 224 then
    match s1 with
    | b1 :: s2 => byte_in 128 191 b1 && utf8_valid s2
    | _ => false
    end
  else if n <? 240 then
    match s1 with
    | b1 :: b2 :: s3 =>
        byte_in (second_lo n) (second_hi n) b1 && byte_in 128 191 b2
        && utf8_valid s3
    | _ => false
    end
  else if n <? 245 then
    match s1 with
    | b1 :: b2 :: b3 :: s4 =>
        byte_in (second_lo n) (second_hi n) b1 && byte_in 128 191 b2
        && byte_in 128 191 b3 && utf8_valid s4
    | _ => false
    end
  else false.
Proof. reflexivity. Qed.

Lemma byte_in_low (lo hi : nat) (a : ascii) :
  nat_of_ascii a < 128 -> 128 <= lo -> byte_in lo hi a = false.
Proof.
  intros Ha Hlo. unfold byte_in. apply andb_false_iff. left.
  apply Nat.leb_gt. lia.
Qed.

Lemma byte_in_high (lo hi : nat) (a : ascii) :
  byte_in lo hi a = true -> 128 <= lo -> 128 <= nat_of_ascii a.
Proof.
  unfold byte_in. intros H Hlo. apply andb_true_iff in H. destruct H as [H _].
  apply Nat.leb_le in H. lia.
Qed.

Lemma second_lo_high (n : nat) : 128 <= second_lo n.
Proof.
  unfold second_lo. destruct (n =? 224); [lia|]. destruct (n =? 240); lia.
Qed.

Lemma utf8_valid_low (a : ascii) (s : str) :
  nat_of_ascii a < 128 -> utf8_valid (a :: s) = utf8_valid s.
Proof.
  intros Ha. rewrite utf8_valid_cons. cbv zeta.
  apply Nat.ltb_lt in Ha. rewrite Ha. reflexivity.
Qed.

(** An ASCII byte never completes or continues the encoding of another
    character: around it the two sides are well formed on their own. *)
Lemma utf8_valid_insert (pre : str) (a : ascii) (post : str) :
  nat_of_ascii a < 128 ->
  utf8_valid (pre ++ a :: post) = utf8_valid pre && utf8_valid post.
Proof.
  intros Ha.
  assert (forall lo hi, 128 <= lo -> byte_in lo hi a = false) as Hlow
    by (intros; apply byte_in_low; assumption).
  remember (length pre) as k eqn:Hk. revert pre Hk.
  induction k as [k IH] using lt_wf_ind. intros pre Hk.
  destruct pre as [|b0 s1].
  - simpl app. rewrite utf8_valid_low by exact Ha. reflexivity.
  - cbn [app]. rewrite !utf8_valid_cons. cbv zeta.
    pose proof (second_lo_high (nat_of_ascii b0)) as Hs.
    destruct (nat_of_ascii b0 <? 128).
    { apply (IH (length s1)); [subst k; simpl; lia|reflexivity]. }
    destruct (nat_of_ascii b0 <? 194); [reflexivity|].
    destruct (nat_of_ascii b0 <? 224).
    { destruct s1 as [|b1 s2]; cbn [app].
      - rewrite Hlow by lia. reflexivity.
      - rewrite (IH (length s2)) by (subst k; simpl; lia || reflexivity).
        rewrite andb_assoc. reflexivity. }
    destruct (nat_of_ascii b0 <? 240).
    { destruct s1 as [|b1 [|b2 s3]]; cbn [app].
      - destruct post; [reflexivity|]. rewrite Hlow by lia. reflexivity.
      - rewrite (Hlow 128 191) by lia. rewrite andb_false_r. reflexivity.
      - rewrite (IH (length s3)) by (subst k; simpl; lia || reflexivity).
        rewrite !andb_assoc. reflexivity. }
    destruct (nat_of_ascii b0 <? 245); [|reflexivity].
    destruct s1 as [|b1 [|b2 [|b3 s4]]]; cbn [app].
    + destruct post as [|p [|q post]]; try reflexivity.
      rewrite Hlow by lia. reflexivity.
    + destruct post; [reflexivity|].
      rewrite (Hlow 128 191) by lia. rewrite andb_false_r. reflexivity.
    + rewrite (Hlow 128 191) by lia. rewrite !andb_false_r. reflexivity.
    + rewrite (IH (length s4)) by (subst k; simpl; lia || reflexivity).
      rewrite !andb_assoc. reflexivity.
Qed.

Lemma utf8_valid_ascii_app (x post : str) :
  ascii_only x = true -> utf8_valid (x ++ post) = utf8_valid post.
Proof.
  induction x as [|a x IH]; intros H; [reflexivity|].
  simpl in H. apply andb_true_iff in H. destruct H as [Ha Hx].
  apply Nat.ltb_lt in Ha. cbn [app].
  rewrite utf8_valid_low by exact Ha. apply IH. exact Hx.
Qed.

Lemma utf8_valid_around (pre x post : str) :
  ascii_only x = true -> x <> [] ->
  utf8_valid (pre ++ x ++ post) = utf8_valid pre && utf8_valid post.
Proof.
  intros Hx Hne. destruct x as [|a x]; [congruence|].
  simpl in Hx. apply andb_true_iff in Hx. destruct Hx as [Ha Hx].
  apply Nat.ltb_lt in Ha. cbn [app].
  rewrite utf8_valid_insert by exact Ha.
  rewrite utf8_valid_ascii_app by exact Hx. reflexivity.
Qed.

(** Replacing ASCII text by ASCII text keeps a text well formed, and
    keeps an ill-formed one ill formed. *)
Lemma utf8_valid_replace (old new s : str) :
  old <> [] -> new <> [] ->
  ascii_only old = true -> ascii_only new = true ->
  utf8_valid (str_replace old new s) = utf8_valid s.
Proof.
  intros Ho Hn Ao An.
  induction s as [s Hs|pre post Hf IH] using (scan_ind old Ho).
  - rewrite (str_replace_none old new Ho s Hs). reflexivity.
  - rewrite (str_replace_first old new Ho) by exact Hf.
    rewrite !utf8_valid_around by assumption. rewrite IH. reflexivity.
Qed.

Lemma utf8_valid_augmented (s : str) : utf8_valid (augmented s) = utf8_valid s.
Proof.
  unfold augmented, apply_region.
  cbn [anchor replacement import_region tools_region write_region].
  rewrite !utf8_valid_replace;
    try reflexivity; try discriminate; vm_compute; reflexivity.
Qed.

Lemma no_cr_replace (old new s : str) :
  old <> [] -> no_cr new = true -> no_cr s = true ->
  no_cr (str_replace old new s) = true.
Proof.
  intros Ho Hn.
  induction s as [s Hs|pre post Hf IH] using (scan_ind old Ho); intros H.
  - rewrite (str_replace_none old new Ho s Hs). exact H.
  - rewrite (str_replace_first old new Ho) by exact Hf.
    unfold no_cr in *. rewrite !forallb_app in *.
    apply andb_true_iff in H. destruct H as [H1 H].
    apply andb_true_iff in H. destruct H as [_ H3].
    rewrite H1, Hn, (IH H3). reflexivity.
Qed.

Lemma no_cr_augmented (s : str) : no_cr s = true -> no_cr (augmented s) = true.
Proof.
  intros H. unfold augmented, apply_region.
  cbn [anchor replacement import_region tools_region write_region].
  repeat (apply no_cr_replace; [discriminate|vm_compute; reflexivity|]).
  exact H.
Qed.

Lemma cr_low : nat_of_ascii cr = 13.
Proof. reflexivity. Qed.

Lemma nl_low : nat_of_ascii nl = 10.
Proof. reflexivity. Qed.

Lemma high_not_cr (c : ascii) : 128 <= nat_of_ascii c -> Ascii.eqb c cr = false.
Proof.
  intros H. destruct (Ascii.eqb c cr) eqn:E; [|reflexivity].
  apply Ascii.eqb_eq in E. subst c. rewrite cr_low in H. lia.
Qed.

Lemma high_not_nl (c : ascii) : 128 <= nat_of_ascii c -> Ascii.eqb c nl = false.
Proof.
  intros H. destruct (Ascii.eqb c nl) eqn:E; [|reflexivity].
  apply Ascii.eqb_eq in E. subst c. rewrite nl_low in H. lia.
Qed.

Lemma universal_newlines_high (c : ascii) (s : str) :
  128 <= nat_of_ascii c ->
  universal_newlines (c :: s) = c :: universal_newlines s.
Proof.
  intros H. cbn [universal_newlines]. rewrite (high_not_cr c H). reflexivity.
Qed.

Lemma encode_text_cons (sep : str) (c : ascii) (s : str) :
  encode_text sep (c :: s) =
  (if Ascii.eqb c nl then sep else [c]) ++ encode_text sep s.
Proof. reflexivity. Qed.

Lemma encode_text_high (sep : str) (c : ascii) (s : str) :
  128 <= nat_of_ascii c ->
  encode_text sep (c :: s) = c :: encode_text sep s.
Proof.
  intros H. rewrite encode_text_cons, (high_not_nl c H). reflexivity.
Qed.

Lemma andb3_true (a b c : bool) : a && b && c = true -> a = true /\ b = true /\ c = true.
Proof. destruct a, b, c; intros H; try discriminate; repeat split. Qed.

Lemma andb4_true (a b c d : bool) :
  a && b && c && d = true -> a = true /\ b = true /\ c = true /\ d = true.
Proof. destruct a, b, c, d; intros H; try discriminate; repeat split. Qed.

(** The newline translation of the reader keeps a text well formed. *)
Lemma utf8_valid_universal (s : str) :
  utf8_valid s = true -> utf8_valid (universal_newlines s) = true.
Proof.
  remember (length s) as k eqn:Hk. revert s Hk.
  induction k as [k IH] using lt_wf_ind. intros s Hk H.
  destruct s as [|b0 s1]; [reflexivity|].
  rewrite utf8_valid_cons in H. cbv zeta in H.
  pose proof (second_lo_high (nat_of_ascii b0)) as Hs.
  destruct (nat_of_ascii b0 <? 128) eqn:E0.
  { apply Nat.ltb_lt in E0. cbn [universal_newlines].
    destruct (Ascii.eqb b0 cr).
    - destruct s1 as [|d s2]; [reflexivity|].
      destruct (Ascii.eqb d nl) eqn:Ed.
      + apply Ascii.eqb_eq in Ed. subst d.
        rewrite utf8_valid_low in H by (rewrite nl_low; lia).
        rewrite utf8_valid_low by (rewrite nl_low; lia).
        apply (IH (length s2)); [subst k; simpl; lia|reflexivity|exact H].
      + rewrite utf8_valid_low by (rewrite nl_low; lia).
        apply (IH (length (d :: s2))); [subst k; simpl; lia|reflexivity|exact H].
    - rewrite utf8_valid_low by exact E0.
      apply (IH (length s1)); [subst k; simpl; lia|reflexivity|exact H]. }
  apply Nat.ltb_ge in E0.
  destruct (nat_of_ascii b0 <? 194) eqn:E1; [discriminate|].
  destruct (nat_of_ascii b0 <? 224) eqn:E2.
  { destruct s1 as [|b1 s2]; [discriminate|].
    apply andb_true_iff in H. destruct H as [H1 H2].
    pose proof (byte_in_high _ _ _ H1 (le_n 128)) as G1.
    rewrite !universal_newlines_high by assumption.
    rewrite utf8_valid_cons. cbv zeta.
    apply Nat.ltb_ge in E0. rewrite E0, E1, E2, H1.
    apply (IH (length s2)); [subst k; simpl; lia|reflexivity|exact H2]. }
  destruct (nat_of_ascii b0 <? 240) eqn:E3.
  { destruct s1 as [|b1 [|b2 s3]]; try discriminate.
    apply andb3_true in H. destruct H as (H1 & H2 & H3).
    pose proof (byte_in_high _ _ _ H1 Hs) as G1.
    pose proof (byte_in_high _ _ _ H2 (le_n 128)) as G2.
    rewrite !universal_newlines_high by assumption.
    rewrite utf8_valid_cons. cbv zeta.
    apply Nat.ltb_ge in E0. rewrite E0, E1, E2, E3, H1, H2.
    apply (IH (length s3)); [subst k; simpl; lia|reflexivity|exact H3]. }
  destruct (nat_of_ascii b0 <? 245) eqn:E4; [|discriminate].
  destruct s1 as [|b1 [|b2 [|b3 s4]]]; try discriminate.
  apply andb4_true in H. destruct H as (H1 & H2 & H3 & H4).
  pose proof (byte_in_high _ _ _ H1 Hs) as G1.
  pose proof (byte_in_high _ _ _ H2 (le_n 128)) as G2.
  pose proof (byte_in_high _ _ _ H3 (le_n 128)) as G3.
  rewrite !universal_newlines_high by assumption.
  rewrite utf8_valid_cons. cbv zeta.
  apply Nat.ltb_ge in E0. rewrite E0, E1, E2, E3, E4, H1, H2, H3.
  apply (IH (length s4)); [subst k; simpl; lia|reflexivity|exact H4].
Qed.

(** Writing line separators made of ASCII keeps a text well formed. *)
Lemma utf8_valid_encode (sep s : str) :
  ascii_only sep = true -> utf8_valid s = true ->
  utf8_valid (encode_text sep s) = true.
Proof.
  intros Hsep.
  remember (length s) as k eqn:Hk. revert s Hk.
  induction k as [k IH] using lt_wf_ind. intros s Hk H.
  destruct s as [|b0 s1]; [reflexivity|].
  rewrite utf8_valid_cons in H. cbv zeta in H.
  pose proof (second_lo_high (nat_of_ascii b0)) as Hs.
  destruct (nat_of_ascii b0 <? 128) eqn:E0.
  { rewrite encode_text_cons. rewrite utf8_valid_ascii_app.
    - apply (IH (length s1)); [subst k; simpl; lia|reflexivity|exact H].
    - destruct (Ascii.eqb b0 nl); [exact Hsep|].
      simpl. rewrite E0. reflexivity. }
  apply Nat.ltb_ge in E0.
  destruct (nat_of_ascii b0 <? 194) eqn:E1; [discriminate|].
  destruct (nat_of_ascii b0 <? 224) eqn:E2.
  { destruct s1 as [|b1 s2]; [discriminate|].
    apply andb_true_iff in H. destruct H as [H1 H2].
    pose proof (byte_in_high _ _ _ H1 (le_n 128)) as G1.
    rewrite !encode_text_high by assumption.
    rewrite utf8_valid_cons. cbv zeta.
    apply Nat.ltb_ge in E0. rewrite E0, E1, E2, H1.
    apply (IH (length s2)); [subst k; simpl; lia|reflexivity|exact H2]. }
  destruct (nat_of_ascii b0 <? 240) eqn:E3.
  { destruct s1 as [|b1 [|b2 s3]]; try discriminate.
    apply andb3_true in H. destruct H as (H1 & H2 & H3).
    pose proof (byte_in_high _ _ _ H1 Hs) as G1.
    pose proof (byte_in_high _ _ _ H2 (le_n 128)) as G2.
    rewrite !encode_text_high by assumption.
    rewrite utf8_valid_cons. cbv zeta.
    apply Nat.ltb_ge in E0. rewrite E0, E1, E2, E3, H1, H2.
    apply (IH (length s3)); [subst k; simpl; lia|reflexivity|exact H3]. }
  destruct (nat_of_ascii b0 <? 245) eqn:E4; [|discriminate].
  destruct s1 as [|b1 [|b2 [|b3 s4]]]; try discriminate.
  apply andb4_true in H. destruct H as (H1 & H2 & H3 & H4).
  pose proof (byte_in_high _ _ _ H1 Hs) as G1.
  pose proof (byte_in_high _ _ _ H2 (le_n 128)) as G2.
  pose proof (byte_in_high _ _ _ H3 (le_n 128)) as G3.
  rewrite !encode_text_high by assumption.
  rewrite utf8_valid_cons. cbv zeta.
  apply Nat.ltb_ge in E0. rewrite E0, E1, E2, E3, E4, H1, H2, H3.
  apply (IH (length s4)); [subst k; simpl; lia|reflexivity|exact H4].
Qed.

Lemma universal_newlines_no_cr (s : str) : no_cr (universal_newlines s) = true.
Proof.
  remember (length s) as k eqn:Hk. revert s Hk.
  induction k as [k IH] using lt_wf_ind. intros s Hk.
  destruct s as [|c s1]; [reflexivity|].
  cbn [universal_newlines]. destruct (Ascii.eqb c cr) eqn:E.
  - destruct s1 as [|d s2]; [reflexivity|].
    destruct (Ascii.eqb d nl).
    + cbn [no_cr forallb]. change (forallb _ ?l) with (no_cr l).
      rewrite (IH (length s2)) by (subst k; simpl; lia || reflexivity).
      reflexivity.
    + cbn [no_cr forallb]. change (forallb _ ?l) with (no_cr l).
      rewrite (IH (length (d :: s2))) by (subst k; simpl; lia || reflexivity).
      reflexivity.
  - cbn [no_cr forallb]. change (forallb _ ?l) with (no_cr l).
    rewrite E. rewrite (IH (length s1)) by (subst k; simpl; lia || reflexivity).
    reflexivity.
Qed.

Lemma universal_newlines_id (s : str) :
  no_cr s = true -> universal_newlines s = s.
Proof.
  induction s as [|c s IH]; intros H; [reflexivity|].
  cbn [no_cr forallb] in H. apply andb_true_iff in H. destruct H as [Hc Hs].
  apply negb_true_iff in Hc. cbn [universal_newlines]. rewrite Hc.
  f_equal. apply IH. exact Hs.
Qed.

Lemma encode_text_lf (s : str) : encode_text [nl] s = s.
Proof.
  induction s as [|c s IH]; [reflexivity|].
  rewrite encode_text_cons, IH. destruct (Ascii.eqb c nl) eqn:E; [|reflexivity].
  apply Ascii.eqb_eq in E. subst c. reflexivity.
Qed.

Lemma universal_newlines_crlf (s : str) :
  no_cr s = true -> universal_newlines (encode_text [cr; nl] s) = s.
Proof.
  induction s as [|c s IH]; intros H; [reflexivity|].
  cbn [no_cr forallb] in H. apply andb_true_iff in H. destruct H as [Hc Hs].
  apply negb_true_iff in Hc. rewrite encode_text_cons.
  destruct (Ascii.eqb c nl) eqn:E.
  - apply Ascii.eqb_eq in E. subst c. cbn [app universal_newlines].
    change (Ascii.eqb cr cr) with true. change (Ascii.eqb nl nl) with true.
    cbv iota. f_equal. apply IH. exact Hs.
  - cbn [app universal_newlines]. rewrite Hc. f_equal. apply IH. exact Hs.
Qed.

(** What is written can be read back: a well-formed text without carriage
    returns, written with the line feed or with carriage return and line
    feed as separator, decodes to itself. *)
Lemma decode_encode (sep s : str) :
  sep = [nl] \/ sep = [cr; nl] ->
  utf8_valid s = true -> no_cr s = true ->
  decode_text (encode_text sep s) = Some s.
Proof.
  intros Hsep Hv Hc. unfold decode_text.
  rewrite utf8_valid_encode; [|destruct Hsep; subst sep; reflexivity|exact Hv].
  f_equal. destruct Hsep; subst sep.
  - rewrite encode_text_lf. apply universal_newlines_id. exact Hc.
  - apply universal_newlines_crlf. exact Hc.
Qed.

Lemma decode_text_spec (bytes s : str) :
  decode_text bytes = Some s ->
  utf8_valid bytes = true /\ s = universal_newlines bytes /\
  utf8_valid s = true /\ no_cr s = true.
Proof.
  unfold decode_text. destruct (utf8_valid bytes) eqn:E; [|discriminate].
  intros H. injection H as <-. repeat split.
  - apply utf8_valid_universal. exact E.
  - apply universal_newlines_no_cr.
Qed.

Lemma concat_repeat_snoc (A : Type) (l : list A) (k : nat) :
  concat (repeat l (S k)) = concat (repeat l k) ++ l.
Proof.
  induction k as [|k IH]; simpl in *.
  - apply app_nil_r.
  - rewrite IH at 1. rewrite app_assoc. reflexivity.
Qed.

(** Runs in a row: each one reads what the one before wrote. *)
Lemma main_n_success (k : nat) (w : world) (bytes s : str) :
  file w = Some bytes -> readable w = true -> writable w = true ->
  linesep w = [nl] \/ linesep w = [cr; nl] ->
  decode_text bytes = Some s ->
  exists w',
    main_n (S k) w = (inl tt, w') /\
    file w' = Some (encode_text (linesep w) (Nat.iter (S k) augmented s)) /\
    readable w' = true /\ writable w' = true /\ linesep w' = linesep w /\
    stdout w' = stdout w ++ concat (repeat summary (S k)) /\
    utf8_valid (Nat.iter (S k) augmented s) = true /\
    no_cr (Nat.iter (S k) augmented s) = true.
Proof.
  intros Hf Hr Hw Hsep Hd.
  destruct (decode_text_spec bytes s Hd) as (_ & _ & Hv & Hc).
  induction k as [|k (w' & E & Hf' & Hr' & Hw' & Hs' & Ho & Hv' & Hc')].
  - cbn [main_n]. unfold bind at 1. cbn [ret].
    rewrite (main_success w bytes s Hf Hr Hd Hw).
    eexists. split; [reflexivity|]. cbn [file readable writable linesep stdout].
    repeat split.
    + cbn [Nat.iter nat_rect]. rewrite utf8_valid_augmented. exact Hv.
    + cbn [Nat.iter nat_rect]. apply no_cr_augmented. exact Hc.
  - change (main_n (S (S k))) with (bind (main_n (S k)) (fun _ => main)).
    unfold bind at 1. rewrite E.
    assert (decode_text (encode_text (linesep w) (Nat.iter (S k) augmented s)) =
            Some (Nat.iter (S k) augmented s)) as Hd'
      by (apply decode_encode; assumption).
    rewrite (main_success w' _ _ Hf' Hr' Hd' Hw').
    eexists. split; [reflexivity|]. cbn [file readable writable linesep stdout].
    rewrite Hs'. repeat split.
    + rewrite Ho, (concat_repeat_snoc _ summary (S k)), app_assoc. reflexivity.
    + rewrite Nat.iter_succ, utf8_valid_augmented. exact Hv'.
    + rewrite Nat.iter_succ. apply no_cr_augmented. exact Hc'.
Qed.

End CodecFacts.

(** ** The model on small inputs *)

Section Examples.

Example str_replace_all_occurrences :
  str_replace (lit "ab") (lit "X") (lit "cababab-ab") = lit "cXXX-X".
Proof. reflexivity. Qed.

Example str_replace_leftmost_first :
  str_replace (lit "aa") (lit "b") (lit "aaa") = lit "ba".
Proof. reflexivity. Qed.

Example str_replace_empty_anchor :
  str_replace (lit "") (lit "-") (lit "abc") = lit "-a-b-c-".
Proof. reflexivity. Qed.

Example occs_overlapping : occs (lit "aa") (lit "aaa") = [0; 1].
Proof. reflexivity. Qed.

Example split_lines_keeps_last :
  split_lines (lit "a" ++ [nl] ++ lit "b" ++ [nl]) = [lit "a"; lit "b"; []].
Proof. reflexivity. Qed.

Example re_sub_groups :
  re_sub (lit "(a)b(c)") (lit "\2-\1") (lit "xabcabc") = Some (lit "xc-ac-a").
Proof. reflexivity. Qed.

Example re_sub_newline_escape :
  re_sub (lit "(a)\n(b)") (lit "\1;\2") (lit "a" ++ [nl] ++ lit "b") = Some (lit "a;b").
Proof. reflexivity. Qed.

Example re_sub_bad_reference :
  re_sub (lit "(a)") (lit "\2") (lit "a") = None.
Proof. reflexivity. Qed.

Example tools_pattern_compiled :
  re_compile tools_pattern =
  Some [PGroup (lit "  getWaitStatsTool,"); PChar nl; PGroup (lit "];")].
Proof. reflexivity. Qed.

Example tools_repl_parsed :
  parse_template tools_repl =
  Some (TGroup 1 :: map TLit tools_addition ++ [TLit nl; TLit "002"%char]).
Proof. vm_compute. reflexivity. Qed.

Example run_on_index_ts :
  main (fresh (Some index_ts) true true) =
  (inl tt,
   {| file := Some (augmented index_ts); readable := true; writable := true;
      linesep := [nl]; stdout := summary;
      log := [EvOpenRead; EvOpenWrite; EvWrite (augmented index_ts)]
             ++ map EvPrint summary |}).
Proof. vm_compute. reflexivity. Qed.

Example augmented_index_ts :
  augmented index_ts =
  text_of_lines
    [ "import {";
      "  getWaitStatsTool,";
      "} from './tools/performance.js';" ]%string
  ++ import_statement
  ++ text_of_lines [ ""; ""; "const tools = ["; "  getWaitStatsTool," ]%string
  ++ tl tools_addition ++ [nl; "002"%char; nl]
  ++ text_of_lines
       [ ""; "const writeOperations = new Set([";
         "  'sqlserver_delete_job'," ]%string
  ++ write_ops
  ++ text_of_lines [ "]);" ]%string.
Proof. vm_compute. reflexivity. Qed.

Example utf8_valid_accepts :
  utf8_valid (lit "a" ++ ["195"; "169"; "226"; "130"; "172"; "240"; "159"; "152"; "128"]%char)
  = true.
Proof. reflexivity. Qed.

Example utf8_valid_rejects :
  map utf8_valid
    [ ["255"]; ["128"]; ["195"]; ["195"; "040"]; ["192"; "128"];
      ["224"; "128"; "128"]; ["237"; "160"; "128"]; ["244"; "144"; "128"; "128"];
      ["226"; "130"] ]%char
  = [false; false; false; false; false; false; false; false; false].
Proof. reflexivity. Qed.

Example universal_newlines_ex :
  universal_newlines (lit "a" ++ [cr; nl] ++ lit "b" ++ [cr] ++ lit "c" ++ [nl; cr])
  = lit "a" ++ [nl] ++ lit "b" ++ [nl] ++ lit "c" ++ [nl; nl].
Proof. reflexivity. Qed.

Example encode_text_crlf :
  encode_text [cr; nl] (lit "a" ++ [nl] ++ lit "b") = lit "a" ++ [cr; nl] ++ lit "b".
Proof. reflexivity. Qed.

(** A file with carriage return and line feed at its line ends is read
    with line feeds, so its anchors match, and on a platform that writes line
    feeds it is written back with line feeds alone. *)
Example run_on_crlf_file :
  file (snd (main (fresh (Some (encode_text [cr; nl] tools_array)) true true)))
  = add_tools tools_array.
Proof. vm_compute. reflexivity. Qed.

Example run_on_undecodable_file :
  main (fresh (Some ["255"%char; nl]) true true) =
  (inr DecodeError,
   {| file := Some ["255"%char; nl]; readable := true; writable := true;
      linesep := [nl]; stdout := []; log := [EvOpenRead] |}).
Proof. reflexivity. Qed.

End Examples.

(** ** The claims *)

(** C1, as the specification states it, fails: with the import line present
    twice the output is not the input with one occurrence of the anchor
    replaced. *)
Lemma C1_two_matches_two_replacements :
  contains import_anchor two_imports = true /\
  ~ single_splice import_anchor import_replacement
      two_imports (add_import two_imports).
Proof.
  split; [vm_compute; reflexivity|].
  intros (pre & post & H1 & H2).
  apply (f_equal (@length ascii)) in H1, H2.
  rewrite !length_app in H1, H2.
  assert (length two_imports = 65) as E1 by (vm_compute; reflexivity).
  assert (length (add_import two_imports) = 593) as E2 by (vm_compute; reflexivity).
  assert (length import_anchor = 32) as E3 by (vm_compute; reflexivity).
  assert (length import_replacement = 296) as E4 by (vm_compute; reflexivity).
  rewrite E1, E3 in H1. rewrite E2, E4 in H2. lia.
Qed.

(** C1 (amended): for every content and each of the three rewrites, the
    content is cut at the matched anchor spans (every non-overlapping
    occurrence, left to right) into pieces free of the anchor, and the output
    is made of the same pieces, unchanged, with the region's replacement in
    place of each matched span.  When the anchor occurs exactly once this is
    one contiguous replacement. *)
Theorem C1_text_outside_matches_preserved (s : str) :
  (exists pieces,
      pieces <> [] /\ s = join import_anchor pieces /\
      add_import s = join import_replacement pieces /\
      Forall (fun g => contains import_anchor g = false) pieces) /\
  (exists pieces,
      pieces <> [] /\ s = join tools_anchor pieces /\
      add_tools s = Some (join tools_replacement pieces) /\
      Forall (fun g => contains tools_anchor g = false) pieces) /\
  (exists pieces,
      pieces <> [] /\ s = join write_anchor pieces /\
      add_write_ops s = join write_replacement pieces /\
      Forall (fun g => contains write_anchor g = false) pieces) /\
  (length (occs import_anchor s) = 1 ->
   single_splice import_anchor import_replacement s (add_import s)) /\
  (length (occs tools_anchor s) = 1 ->
   exists out, add_tools s = Some out /\
               single_splice tools_anchor tools_replacement s out) /\
  (length (occs write_anchor s) = 1 ->
   single_splice write_anchor write_replacement s (add_write_ops s)).
Proof.
  repeat split.
  - apply (str_replace_pieces _ import_replacement import_anchor_nonempty).
  - rewrite add_tools_replace.
    destruct (str_replace_pieces _ tools_replacement tools_anchor_nonempty s)
      as (pieces & H1 & H2 & H3 & H4).
    exists pieces. repeat split; try assumption. unfold apply_region. simpl.
    rewrite H3. reflexivity.
  - apply (str_replace_pieces _ write_replacement write_anchor_nonempty).
  - intros H. apply (str_replace_once _ import_replacement import_anchor_nonempty s H).
  - intros H. rewrite add_tools_replace. eexists. split; [reflexivity|].
    apply (str_replace_once _ tools_replacement tools_anchor_nonempty s H).
  - intros H. apply (str_replace_once _ write_replacement write_anchor_nonempty s H).
Qed.

Lemma C1_witness :
  length (occs import_anchor index_ts) = 1 /\
  single_splice import_anchor import_replacement index_ts (add_import index_ts).
Proof.
  assert (length (occs import_anchor index_ts) = 1) as H by (vm_compute; reflexivity).
  split; [exact H|].
  exact (proj1 (proj2 (proj2 (proj2 (C1_text_outside_matches_preserved index_ts)))) H).
Defined.

(** C2, as the specification states it, fails: the import line occurs twice,
    the first occurrence is at offset 0, and the output is not the input with
    the first occurrence alone replaced. *)
Lemma C2_later_match_also_replaced :
  two_imports = import_anchor ++ nl :: import_anchor /\
  str_find import_anchor two_imports = Some 0 /\
  add_import two_imports <> import_replacement ++ nl :: import_anchor /\
  add_import two_imports = import_replacement ++ nl :: import_replacement.
Proof.
  repeat split; try (vm_compute; reflexivity).
  vm_compute. discriminate.
Qed.

(** C2 (amended): each rewrite replaces the first occurrence of its anchor
    and then goes on in the same way with the text after that occurrence, so
    every later non-overlapping occurrence is replaced as well. *)
Theorem C2_every_match_replaced (pre post : str) :
  (first_match import_anchor pre ->
   add_import (pre ++ import_anchor ++ post) =
   pre ++ import_replacement ++ add_import post) /\
  (first_match tools_anchor pre ->
   add_tools (pre ++ tools_anchor ++ post) =
   option_map (fun rest => pre ++ tools_replacement ++ rest) (add_tools post)) /\
  (first_match write_anchor pre ->
   add_write_ops (pre ++ write_anchor ++ post) =
   pre ++ write_replacement ++ add_write_ops post).
Proof.
  repeat split; intros H.
  - apply (str_replace_first _ import_replacement import_anchor_nonempty _ _ H).
  - rewrite !add_tools_replace. simpl. f_equal.
    apply (str_replace_first _ tools_replacement tools_anchor_nonempty _ _ H).
  - apply (str_replace_first _ write_replacement write_anchor_nonempty _ _ H).
Qed.

Lemma C2_witness :
  first_match import_anchor (lit "// head") /\
  add_import (lit "// head" ++ import_anchor ++ two_imports) =
  lit "// head" ++ import_replacement ++ add_import two_imports.
Proof.
  assert (first_match import_anchor (lit "// head")) as H by (vm_compute; reflexivity).
  split; [exact H|].
  exact (proj1 (C2_every_match_replaced (lit "// head") two_imports) H).
Defined.

(** C3: when a region's anchor occurs exactly once in the content, the
    rewrite is one splice, the anchor's span giving way to the region's
    replacement, and the replacement carries the region's block exactly
    once; so the block is inserted once, not zero times and not twice. *)
Theorem C3_single_insertion (s : str) :
  (length (occs import_statement import_replacement) = 1 /\
   length (occs tools_addition tools_replacement) = 1 /\
   length (occs write_ops write_replacement) = 1) /\
  (length (occs import_anchor s) = 1 ->
   exists pre post,
     s = pre ++ import_anchor ++ post /\
     add_import s = pre ++ import_replacement ++ post) /\
  (length (occs tools_anchor s) = 1 ->
   exists pre post,
     s = pre ++ tools_anchor ++ post /\
     add_tools s = Some (pre ++ tools_replacement ++ post)) /\
  (length (occs write_anchor s) = 1 ->
   exists pre post,
     s = pre ++ write_anchor ++ post /\
     add_write_ops s = pre ++ write_replacement ++ post).
Proof.
  split; [repeat split; vm_compute; reflexivity|].
  repeat split; intros H.
  - apply (str_replace_once _ import_replacement import_anchor_nonempty s H).
  - rewrite add_tools_replace.
    destruct (str_replace_once _ tools_replacement tools_anchor_nonempty s H)
      as (pre & post & H1 & H2).
    exists pre, post. split; [exact H1|]. unfold apply_region. simpl.
    rewrite H2. reflexivity.
  - apply (str_replace_once _ write_replacement write_anchor_nonempty s H).
Qed.

Lemma C3_witness :
  length (occs write_anchor index_ts) = 1 /\
  exists pre post,
    index_ts = pre ++ write_anchor ++ post /\
    add_write_ops index_ts = pre ++ write_replacement ++ post.
Proof.
  assert (length (occs write_anchor index_ts) = 1) as H by (vm_compute; reflexivity).
  split; [exact H|].
  exact (proj2 (proj2 (proj2 (C3_single_insertion index_ts))) H).
Defined.

(** C4: a rewrite whose anchor is absent returns its input; the three
    rewrites raise nothing and each is applied to the result of the one
    before, whichever anchors are missing: a region whose anchor is present
    has its block in the output, and with one anchor missing the output is
    what the two other rewrites make of the input.  A run on a readable,
    well-formed and writable file ends without error and stores that output.
    Without the import line but with the two other anchors, the output holds
    the registration entries and the identifier entries, and the import
    block only if the input already did. *)
Theorem C4_missing_anchor_is_skipped (s : str) :
  (contains import_anchor s = false -> add_import s = s) /\
  (contains tools_anchor s = false -> add_tools s = Some s) /\
  (contains write_anchor s = false -> add_write_ops s = s) /\
  (exists mid out,
     add_tools (add_import s) = Some mid /\
     out = add_write_ops mid /\
     augment s = Some out /\
     (contains import_anchor s = true -> contains import_statement out = true) /\
     (contains tools_anchor s = true -> contains tools_addition out = true) /\
     (contains write_anchor s = true -> contains write_ops out = true) /\
     (contains import_anchor s = false ->
      Some out = option_map add_write_ops (add_tools s)) /\
     (contains tools_anchor s = false -> out = add_write_ops (add_import s)) /\
     (contains write_anchor s = false -> Some out = add_tools (add_import s)) /\
     (contains write_anchor s = false -> contains write_ops s = false ->
      contains write_ops out = false)) /\
  (forall w bytes,
     file w = Some bytes -> readable w = true ->
     decode_text bytes = Some s -> writable w = true ->
     fst (main w) = inl tt /\
     file (snd (main w)) = option_map (encode_text (linesep w)) (augment s)) /\
  (contains import_anchor s = false ->
   contains tools_anchor s = true ->
   contains write_anchor s = true ->
   exists mid out,
     add_import s = s /\ add_tools s = Some mid /\
     out = add_write_ops mid /\ augment s = Some out /\
     contains tools_addition out = true /\
     contains write_ops out = true /\
     (contains import_statement s = false ->
      contains import_statement out = false)).
Proof.
  set (I := str_replace import_anchor import_replacement).
  set (L := str_replace tools_anchor tools_replacement).
  set (W := str_replace write_anchor write_replacement).
  assert (forall x, contains import_anchor x = false -> I x = x) as N1.
  { intros x H. apply contains_false in H.
    apply (str_replace_none _ import_replacement import_anchor_nonempty x H). }
  assert (forall x, contains tools_anchor x = false -> L x = x) as N2.
  { intros x H. apply contains_false in H.
    apply (str_replace_none _ tools_replacement tools_anchor_nonempty x H). }
  assert (forall x, contains write_anchor x = false -> W x = x) as N3.
  { intros x H. apply contains_false in H.
    apply (str_replace_none _ write_replacement write_anchor_nonempty x H). }
  assert (forall x, contains tools_anchor (I x) = contains tools_anchor x) as P12
    by apply (contains_replace _ _ import_anchor_nonempty _ import_apart_tools).
  assert (forall x, contains write_anchor (I x) = contains write_anchor x) as P13
    by apply (contains_replace _ _ import_anchor_nonempty _ import_apart_write).
  assert (forall x, contains write_anchor (L x) = contains write_anchor x) as P23
    by apply (contains_replace _ _ tools_anchor_nonempty _ tools_apart_write).
  assert (forall x, contains tools_addition (W x) = contains tools_addition x) as Q3t
    by apply (contains_replace _ _ write_anchor_nonempty _ write_apart_tools_addition).
  assert (forall x, contains import_statement (W x) = contains import_statement x) as Q3i
    by apply (contains_replace _ _ write_anchor_nonempty _ write_apart_import_statement).
  assert (forall x, contains import_statement (L x) = contains import_statement x) as Q2i
    by apply (contains_replace _ _ tools_anchor_nonempty _ tools_apart_import_statement).
  assert (forall x, contains write_ops (I x) = contains write_ops x) as Q1w
    by apply (contains_replace _ _ import_anchor_nonempty _ import_apart_write_ops).
  assert (forall x, contains write_ops (L x) = contains write_ops x) as Q2w
    by apply (contains_replace _ _ tools_anchor_nonempty _ tools_apart_write_ops).
  assert (forall x, contains tools_anchor x = true ->
                    contains tools_addition (L x) = true) as A2.
  { intros x H. apply (contains_trans _ tools_replacement).
    - apply (block_in_replacement tools_region). right. left. reflexivity.
    - apply (str_replace_contains _ _ tools_anchor_nonempty). exact H. }
  assert (forall x, contains write_anchor x = true ->
                    contains write_ops (W x) = true) as A3.
  { intros x H. apply (contains_trans _ write_replacement).
    - apply (block_in_replacement write_region). right. right. left. reflexivity.
    - apply (str_replace_contains _ _ write_anchor_nonempty). exact H. }
  assert (forall x, contains import_anchor x = true ->
                    contains import_statement (I x) = true) as A1.
  { intros x H. apply (contains_trans _ import_replacement).
    - apply (block_in_replacement import_region). left. reflexivity.
    - apply (str_replace_contains _ _ import_anchor_nonempty). exact H. }
  assert (augment s = Some (W (L (I s)))) as Ea by apply augment_augmented.
  assert (forall x, add_tools x = Some (L x)) as Et by apply add_tools_replace.
  split; [apply N1|]. split; [intros H; rewrite Et, (N2 s H); reflexivity|].
  split; [apply N3|]. split; [|split].
  - exists (L (I s)), (W (L (I s))).
    split; [apply Et|]. split; [reflexivity|]. split; [exact Ea|].
    split; [intros H; rewrite Q3i, Q2i; apply A1; exact H|].
    split; [intros H; rewrite Q3t; apply A2; rewrite P12; exact H|].
    split; [intros H; apply A3; rewrite P23, P13; exact H|].
    split; [intros H; rewrite Et, (N1 s H); reflexivity|].
    split; [intros H; rewrite (N2 (I s)) by (rewrite P12; exact H); reflexivity|].
    split; [intros H; rewrite Et, (N3 (L (I s))) by (rewrite P23, P13; exact H);
            reflexivity|].
    intros H Hw. rewrite (N3 (L (I s))) by (rewrite P23, P13; exact H).
    rewrite Q2w, Q1w. exact Hw.
  - intros w bytes Hf Hr Hd Hw.
    rewrite (main_success w bytes s Hf Hr Hd Hw), augment_augmented.
    split; reflexivity.
  - intros H1 H2 H3. exists (L s), (W (L s)).
    split; [apply N1; exact H1|]. split; [apply Et|]. split; [reflexivity|].
    split; [rewrite Ea, (N1 s H1); reflexivity|].
    split; [rewrite Q3t; apply A2; exact H2|].
    split; [apply A3; rewrite P23; exact H3|].
    intros Hi. rewrite Q3i, Q2i. exact Hi.
Qed.

Lemma C4_witness :
  contains import_anchor no_import_line = false /\
  contains tools_anchor no_import_line = true /\
  contains write_anchor no_import_line = true /\
  exists mid out,
    add_import no_import_line = no_import_line /\
    add_tools no_import_line = Some mid /\
    out = add_write_ops mid /\ augment no_import_line = Some out /\
    contains tools_addition out = true /\
    contains write_ops out = true /\
    (contains import_statement no_import_line = false ->
     contains import_statement out = false).
Proof.
  assert (contains import_anchor no_import_line = false) as H1 by (vm_compute; reflexivity).
  assert (contains tools_anchor no_import_line = true) as H2 by (vm_compute; reflexivity).
  assert (contains write_anchor no_import_line = true) as H3 by (vm_compute; reflexivity).
  repeat (split; [assumption|]).
  exact (proj2 (proj2 (proj2 (proj2 (proj2
    (C4_missing_anchor_is_skipped no_import_line))))) H1 H2 H3).
Defined.

(** C5, as the specification states it, fails: on a file without any anchor
    no rewrite changes anything, the file is written back as it was, and the
    summary still lists all three additions and no skip. *)
Lemma C5_summary_ignores_skips :
  add_import no_anchor = no_anchor /\
  add_tools no_anchor = Some no_anchor /\
  add_write_ops no_anchor = no_anchor /\
  fst (main (fresh (Some no_anchor) true true)) = inl tt /\
  file (snd (main (fresh (Some no_anchor) true true))) = Some no_anchor /\
  stdout (snd (main (fresh (Some no_anchor) true true))) =
  map lit
    [ "Successfully updated index.ts";
      "- Added file-management import";
      "- Added 9 new tools to tools array";
      "- Added 7 write operations to writeOperations set" ]%string.
Proof. repeat split; vm_compute; reflexivity. Qed.

(** C5 (amended): the summary does not depend on the content.  Every run
    that succeeds, that is, every run on a file that is there, may be read,
    holds well-formed UTF-8 and may be written, prints the same four lines,
    whichever anchors were found; a run that fails prints nothing. *)
Theorem C5_summary_is_fixed (w : world) :
  (forall bytes s,
     file w = Some bytes -> readable w = true ->
     decode_text bytes = Some s -> writable w = true ->
     fst (main w) = inl tt /\
     stdout (snd (main w)) = stdout w ++ summary) /\
  (fst (main w) = inl tt -> stdout (snd (main w)) = stdout w ++ summary) /\
  (fst (main w) <> inl tt -> stdout (snd (main w)) = stdout w) /\
  (fst (main w) = inl tt <->
   exists bytes s,
     file w = Some bytes /\ readable w = true /\
     decode_text bytes = Some s /\ writable w = true).
Proof.
  split; [|split; [|split; [|split]]].
  - intros bytes s Hf Hr Hd Hw.
    rewrite (main_success w bytes s Hf Hr Hd Hw). split; reflexivity.
  - intros H.
    destruct (main_cases w) as [(b & c & _ & _ & _ & _ & _ & _ & Ho)|(e & He & _)];
      [exact Ho|congruence].
  - intros H.
    destruct (main_cases w) as [(b & c & _ & _ & _ & _ & Hs & _)|(e & _ & _ & _ & Ho & _)];
      [congruence|exact Ho].
  - intros H.
    destruct (main_cases w) as [(b & c & Hf & Hr & Hd & Hw & _)|(e & He & _)];
      [|congruence].
    exists b, c. repeat split; assumption.
  - intros (b & c & Hf & Hr & Hd & Hw).
    rewrite (main_success w b c Hf Hr Hd Hw). reflexivity.
Qed.

Lemma C5_witness :
  decode_text index_ts = Some index_ts /\
  fst (main (fresh (Some index_ts) true true)) = inl tt /\
  stdout (snd (main (fresh (Some index_ts) true true))) = [] ++ summary.
Proof.
  assert (decode_text index_ts = Some index_ts) as Hd by (vm_compute; reflexivity).
  split; [exact Hd|].
  exact (proj1 (C5_summary_is_fixed (fresh (Some index_ts) true true))
           index_ts index_ts eq_refl eq_refl Hd eq_refl).
Defined.

(** C6 fails on the code: on a registration list that ends in the anchor
    line and the closing line, the rewrite puts the new entries after the
    anchor line but writes the character U+0002 where the closing [];] was;
    the output holds neither the entries followed by the closing line nor any
    [];] at all. *)
Theorem C6_closing_delimiter_lost :
  exists out,
    add_tools tools_array = Some out /\
    augment tools_array = Some out /\
    out = lit "const tools = [" ++ [nl] ++
          lit "  getWaitStatsTool," ++ tools_addition ++
          [nl; "002"%char] ++ [nl] /\
    contains (lit "  getWaitStatsTool," ++ tools_addition ++ [nl] ++ lit "];") out
      = false /\
    contains (lit "];") out = false.
Proof.
  eexists. split; [vm_compute; reflexivity|].
  repeat split; vm_compute; reflexivity.
Qed.

(** C7, as the specification states it, fails: after two runs on a file
    with each anchor once, the import block is there twice but the
    registration entries and the identifier entries are there once. *)
Lemma C7_second_run_duplicates_import_only :
  exists once twice,
    augment index_ts = Some once /\
    augment once = Some twice /\
    length (occs import_statement twice) = 2 /\
    length (occs tools_addition twice) = 1 /\
    length (occs write_ops twice) = 1.
Proof.
  exists (augmented index_ts), (augmented (augmented index_ts)).
  repeat split; vm_compute; reflexivity.
Qed.

(** C7 (amended): a second run repeats only the import-block rewrite.  The
    output of a run holds no registration-list anchor and no identifier-set
    anchor, so these two rewrites leave it as it is, and the second run is
    the import rewrite alone.  The output holds the import line as often as
    the input did, so the import rewrite applies again: after the second
    run the import block is there once more for each import line, while the
    registration entries and the identifier entries are there as often as
    after the first run. *)
Theorem C7_second_run (s : str) :
  exists out,
    augment s = Some out /\
    contains tools_anchor out = false /\
    contains write_anchor out = false /\
    add_tools out = Some out /\
    add_write_ops out = out /\
    augment out = Some (add_import out) /\
    length (occs import_anchor out) = length (occs import_anchor s) /\
    length (occs import_statement (add_import out)) =
      length (occs import_statement out) + length (occs import_anchor s) /\
    length (occs tools_addition (add_import out)) =
      length (occs tools_addition out) /\
    length (occs write_ops (add_import out)) = length (occs write_ops out) /\
    (contains import_anchor s = true -> length out < length (add_import out)).
Proof.
  exists (augmented s). split; [apply augment_augmented|].
  destruct (augmented_clear s) as [Ht Hw].
  pose proof (augmented_import_count s) as Hc.
  split; [apply contains_false; exact Ht|].
  split; [apply contains_false; exact Hw|].
  split.
  { rewrite add_tools_replace. f_equal.
    apply (str_replace_none _ _ tools_anchor_nonempty _ Ht). }
  split; [apply (str_replace_none _ _ write_anchor_nonempty _ Hw)|].
  split.
  { rewrite augment_augmented. f_equal.
    apply augmented_of_clear. split; assumption. }
  split; [exact Hc|].
  split.
  { pose proof (occs_replace_count_gen import_anchor import_replacement
                  import_anchor_nonempty import_statement (augmented s)
                  import_border_free import_crossfree_statement) as H.
    fold (add_import (augmented s)) in H.
    change (length (occs import_statement import_anchor)) with 0 in H.
    change (length (occs import_statement import_replacement)) with 1 in H.
    rewrite Hc in H. lia. }
  split.
  { rewrite augmented_import_last.
    apply (tools_addition_count_twice _ []). }
  split.
  { apply (occs_replace_count _ _ import_anchor_nonempty _ import_apart_write_ops). }
  intros H. apply (str_replace_grows _ _ import_anchor_nonempty).
  - vm_compute. lia.
  - unfold contains in *. destruct (occs import_anchor s); [discriminate|].
    destruct (occs import_anchor (augmented s)); [discriminate|reflexivity].
Qed.

Lemma C7_witness :
  contains import_anchor index_ts = true /\
  exists out,
    augment index_ts = Some out /\
    contains tools_anchor out = false /\
    contains write_anchor out = false /\
    add_tools out = Some out /\
    add_write_ops out = out /\
    augment out = Some (add_import out) /\
    length (occs import_anchor out) = length (occs import_anchor index_ts) /\
    length (occs import_statement (add_import out)) =
      length (occs import_statement out) + length (occs import_anchor index_ts) /\
    length (occs tools_addition (add_import out)) =
      length (occs tools_addition out) /\
    length (occs write_ops (add_import out)) = length (occs write_ops out) /\
    length out < length (add_import out).
Proof.
  assert (contains import_anchor index_ts = true) as H by (vm_compute; reflexivity).
  split; [exact H|].
  destruct (C7_second_run index_ts)
    as (out & H1 & H2 & H3 & H4 & H5 & H6 & H7 & H8 & H9 & H10 & H11).
  exists out. repeat (split; [assumption|]). exact (H11 H).
Defined.

(** C8: the import rewrite neither removes nor adds an occurrence of the
    registration-list anchor or of the identifier-set anchor, and the
    registration-list rewrite neither removes nor adds an occurrence of the
    identifier-set anchor: the occurrences after a rewrite are the
    occurrences before it, in the same order, each moved by the length the
    rewrite gives to the text in front of it. *)
Theorem C8_later_anchors_untouched (s : str) :
  occs tools_anchor (add_import s) =
    map (fun i => length (add_import (firstn i s))) (occs tools_anchor s) /\
  occs write_anchor (add_import s) =
    map (fun i => length (add_import (firstn i s))) (occs write_anchor s) /\
  (exists add_tools',
     (forall x, add_tools x = Some (add_tools' x)) /\
     occs write_anchor (add_tools' s) =
       map (fun i => length (add_tools' (firstn i s))) (occs write_anchor s)) /\
  contains tools_anchor (add_import s) = contains tools_anchor s /\
  contains write_anchor (add_import s) = contains write_anchor s.
Proof.
  repeat split.
  - apply (occs_replace_moved _ _ import_anchor_nonempty _ import_apart_tools).
  - apply (occs_replace_moved _ _ import_anchor_nonempty _ import_apart_write).
  - exists (apply_region tools_region). split; [apply add_tools_replace|].
    apply (occs_replace_moved _ _ tools_anchor_nonempty _ tools_apart_write).
  - apply (contains_replace _ _ import_anchor_nonempty _ import_apart_tools).
  - apply (contains_replace _ _ import_anchor_nonempty _ import_apart_write).
Qed.

(** C9: when the file is missing or may not be read, the run ends with the
    file-access error right after the attempt to open the file for reading:
    the file is not opened for writing, nothing is written or printed, and
    the stored content is what it was. *)
Theorem C9_read_failure_is_fatal (w : world) :
  file w = None \/ readable w = false ->
  fst (main w) = inr FileAccessError /\
  file (snd (main w)) = file w /\
  stdout (snd (main w)) = stdout w /\
  log (snd (main w)) = log w ++ [EvOpenRead].
Proof.
  intros H. rewrite (main_read_failure w H). repeat split.
Qed.

Lemma C9_witness :
  file (fresh None true true) = None /\
  fst (main (fresh None true true)) = inr FileAccessError /\
  file (snd (main (fresh None true true))) = None /\
  stdout (snd (main (fresh None true true))) = [] /\
  log (snd (main (fresh None true true))) = [] ++ [EvOpenRead].
Proof.
  split; [reflexivity|].
  exact (C9_read_failure_is_fatal (fresh None true true) (or_introl eq_refl)).
Defined.

(** C10, as the specification states it, fails: with a comment after the
    closing bracket no line consists exactly of [];], and the registration
    list is rewritten all the same. *)
Lemma C10_closing_line_need_not_be_exact :
  adjacent_lines (lit "  getWaitStatsTool,") (lit "];")
    (split_lines tools_array_commented) = false /\
  In (lit "]; // end of tools") (split_lines tools_array_commented) /\
  exists out,
    add_tools tools_array_commented = Some out /\
    out <> tools_array_commented /\
    contains tools_addition out = true.
Proof.
  split; [vm_compute; reflexivity|].
  split; [vm_compute; tauto|].
  eexists. split; [vm_compute; reflexivity|].
  split; [discriminate|vm_compute; reflexivity].
Qed.

(** C10 (amended): the registration list is rewritten exactly when the
    content holds the text made of the anchor line's characters
    [  getWaitStatsTool,], one line break and the two characters [];]; what
    precedes that text on its first line and what follows it on its second
    line play no part.  When this text is absent, as when an entry, a comment
    or an empty line follows the anchor line, the rewrite returns the content
    unchanged and raises nothing. *)
Theorem C10_tools_rewrite_condition (s : str) :
  tools_anchor = lit "  getWaitStatsTool," ++ [nl] ++ lit "];" /\
  (contains tools_anchor s = false -> add_tools s = Some s) /\
  (contains tools_anchor s = true ->
   exists out, add_tools s = Some out /\ length s < length out).
Proof.
  split; [reflexivity|]. split; intros H.
  - apply contains_false in H. rewrite add_tools_replace. f_equal.
    apply (str_replace_none _ tools_replacement tools_anchor_nonempty s H).
  - rewrite add_tools_replace. eexists. split; [reflexivity|].
    apply (str_replace_grows _ _ tools_anchor_nonempty); [vm_compute; lia|exact H].
Qed.

Lemma C10_witness :
  contains (lit "  getWaitStatsTool,") tools_array_longer = true /\
  contains tools_anchor tools_array_longer = false /\
  add_tools tools_array_longer = Some tools_array_longer.
Proof.
  assert (contains tools_anchor tools_array_longer = false) as H by (vm_compute; reflexivity).
  split; [vm_compute; reflexivity|]. split; [exact H|].
  exact (proj1 (proj2 (C10_tools_rewrite_condition tools_array_longer)) H).
Defined.

(** ** Properties beyond the claims *)

(** X1: the [re.sub] call of step 2 never raises, and it is the plain
    replacement of the text [  getWaitStatsTool,], line break, [];] by the
    anchor line, the new entries, a line break and the character U+0002. *)
Theorem X1_re_sub_is_plain_replace (s : str) :
  add_tools s =
  Some (str_replace
          (lit "  getWaitStatsTool," ++ [nl] ++ lit "];")
          (lit "  getWaitStatsTool," ++ tools_addition ++ [nl; "002"%char])
          s).
Proof. apply add_tools_replace. Qed.

(** X2: the three rewrites lengthen the content by 264 characters for each
    occurrence of the import line, 257 for each occurrence of the
    registration-list anchor and 237 for each occurrence of the
    identifier-set anchor, occurrences counted in the content read. *)
Theorem X2_output_length (s : str) :
  exists out,
    augment s = Some out /\
    length out =
      length s + 264 * length (occs import_anchor s)
      + 257 * length (occs tools_anchor s)
      + 237 * length (occs write_anchor s).
Proof.
  exists (augmented s). split; [apply augment_augmented|apply augmented_length].
Qed.

(** X3: the three rewrites return the content they were given exactly when
    it holds none of the three anchors. *)
Theorem X3_unchanged_iff_no_anchor (s : str) :
  augment s = Some s <->
  contains import_anchor s = false /\
  contains tools_anchor s = false /\
  contains write_anchor s = false.
Proof.
  rewrite augment_augmented. split.
  - intros H. injection H as H.
    pose proof (augmented_length s) as HL. rewrite H in HL.
    repeat split; apply contains_false; apply length_0_nil; lia.
  - intros (H1 & H2 & H3). apply contains_false in H1, H2, H3. f_equal.
    unfold augmented, apply_region.
    cbn [anchor replacement import_region tools_region write_region].
    rewrite (str_replace_none _ _ import_anchor_nonempty s H1).
    rewrite (str_replace_none _ _ tools_anchor_nonempty s H2).
    apply (str_replace_none _ _ write_anchor_nonempty s H3).
Qed.

Lemma X3_witness :
  (contains import_anchor no_anchor = false /\
   contains tools_anchor no_anchor = false /\
   contains write_anchor no_anchor = false) /\
  augment no_anchor = Some no_anchor.
Proof.
  assert (contains import_anchor no_anchor = false /\
          contains tools_anchor no_anchor = false /\
          contains write_anchor no_anchor = false) as H
    by (repeat split; vm_compute; reflexivity).
  split; [exact H|].
  exact (proj2 (X3_unchanged_iff_no_anchor no_anchor) H).
Defined.

(** X4: the three rewrites commute pairwise, so the result of the script
    does not depend on the order of its three steps; in particular the
    steps taken in the reverse order give the same content. *)
Theorem X4_rewrites_commute (s : str) :
  add_import (add_write_ops s) = add_write_ops (add_import s) /\
  add_tools (add_import s) = option_map add_import (add_tools s) /\
  add_tools (add_write_ops s) = option_map add_write_ops (add_tools s) /\
  option_map add_import (add_tools (add_write_ops s)) = augment s.
Proof.
  assert (forall x, add_import (add_write_ops x) = add_write_ops (add_import x)) as C13.
  { intros x. symmetry.
    apply (str_replace_commute _ _ _ _ write_anchor_nonempty import_anchor_nonempty
             write_import_independent). }
  assert (forall x, apply_region tools_region (add_import x) =
                    add_import (apply_region tools_region x)) as C12.
  { intros x.
    apply (str_replace_commute _ _ _ _ tools_anchor_nonempty import_anchor_nonempty
             tools_import_independent). }
  assert (forall x, apply_region tools_region (add_write_ops x) =
                    add_write_ops (apply_region tools_region x)) as C23.
  { intros x.
    apply (str_replace_commute _ _ _ _ tools_anchor_nonempty write_anchor_nonempty
             tools_write_independent). }
  repeat split.
  - apply C13.
  - rewrite !add_tools_replace. simpl. f_equal. apply C12.
  - rewrite !add_tools_replace. simpl. f_equal. apply C23.
  - unfold augment. rewrite !add_tools_replace. simpl. f_equal.
    rewrite C23, C12. apply C13.
Qed.

(** X5: running the three rewrites [k + 1] times over is running them once
    and then the import rewrite [k] more times; each run adds 264
    characters for each import line of the original content, and the other
    two insertions are made once. *)
Theorem X5_repeated_rewrites (k : nat) (s : str) :
  augment_n (S k) s = option_map (Nat.iter k add_import) (augment s) /\
  exists out,
    augment_n (S k) s = Some out /\
    length out =
      length s + 264 * (S k * length (occs import_anchor s))
      + 257 * length (occs tools_anchor s)
      + 237 * length (occs write_anchor s).
Proof.
  rewrite augment_n_iter, augment_augmented, augmented_iter. split; [reflexivity|].
  eexists. split; [reflexivity|].
  destruct (iter_import_length k (augmented s)) as [_ HL].
  rewrite HL, augmented_length, augmented_import_count. lia.
Qed.

(** X6: on every content the registration-list rewrite and the
    identifier-set rewrite leave none of their own anchors behind, so doing
    either of them twice is doing it once; the import rewrite keeps every
    import line and adds its block again each time. *)
Theorem X6_rewrites_repeated (s : str) :
  add_write_ops (add_write_ops s) = add_write_ops s /\
  contains write_anchor (add_write_ops s) = false /\
  (exists mid,
     add_tools s = Some mid /\ add_tools mid = Some mid /\
     contains tools_anchor mid = false) /\
  length (occs import_anchor (add_import s)) = length (occs import_anchor s) /\
  length (add_import (add_import s)) =
    length (add_import s) + 264 * length (occs import_anchor s).
Proof.
  repeat split.
  - apply (str_replace_idempotent _ _ write_anchor_nonempty write_consumed).
  - apply contains_false.
    apply (occs_replace_consumed _ _ write_anchor_nonempty write_consumed).
  - exists (apply_region tools_region s). rewrite !add_tools_replace.
    repeat split.
    + f_equal.
      apply (str_replace_idempotent _ _ tools_anchor_nonempty tools_consumed).
    + apply contains_false.
      apply (occs_replace_consumed _ _ tools_anchor_nonempty tools_consumed).
  - apply add_import_count.
  - rewrite add_import_length, add_import_count. reflexivity.
Qed.

(** X7: when the file can be read and decoded but may not be opened for
    writing, the run ends with the file-access error after the attempt to
    open it for writing: the file holds the bytes it held, nothing was
    written and nothing is printed. *)
Theorem X7_write_failure (w : world) (bytes s : str) :
  file w = Some bytes -> readable w = true ->
  decode_text bytes = Some s -> writable w = false ->
  fst (main w) = inr FileAccessError /\
  file (snd (main w)) = Some bytes /\
  stdout (snd (main w)) = stdout w /\
  log (snd (main w)) = log w ++ [EvOpenRead; EvOpenWrite].
Proof.
  intros Hf Hr Hd Hw. rewrite (main_write_failure w bytes s Hf Hr Hd Hw).
  cbn [fst snd file stdout log]. repeat split. exact Hf.
Qed.

Lemma X7_witness :
  decode_text index_ts = Some index_ts /\
  fst (main (fresh (Some index_ts) true false)) = inr FileAccessError /\
  file (snd (main (fresh (Some index_ts) true false))) = Some index_ts /\
  stdout (snd (main (fresh (Some index_ts) true false))) = [] /\
  log (snd (main (fresh (Some index_ts) true false))) = [] ++ [EvOpenRead; EvOpenWrite].
Proof.
  assert (decode_text index_ts = Some index_ts) as Hd by (vm_compute; reflexivity).
  split; [exact Hd|].
  exact (X7_write_failure (fresh (Some index_ts) true false) index_ts index_ts
           eq_refl eq_refl Hd eq_refl).
Defined.

(** X8: a run on a readable and writable file whose bytes decode to the
    text [s] opens the file once for reading and once for writing, in this
    order, and writes once; what it writes is the result of the three
    rewrites on [s], stored with the platform's line separator for every
    line feed; the four summary lines are printed after the write. *)
Theorem X8_successful_run (w : world) (bytes s : str) :
  file w = Some bytes -> readable w = true ->
  decode_text bytes = Some s -> writable w = true ->
  exists out,
    augment s = Some out /\
    fst (main w) = inl tt /\
    file (snd (main w)) = Some (encode_text (linesep w) out) /\
    log (snd (main w)) =
      log w ++ [EvOpenRead; EvOpenWrite; EvWrite out] ++ map EvPrint summary.
Proof.
  intros Hf Hr Hd Hw. exists (augmented s).
  rewrite (main_success w bytes s Hf Hr Hd Hw). split; [apply augment_augmented|].
  repeat split.
Qed.

Lemma X8_witness :
  decode_text index_ts = Some index_ts /\
  exists out,
    augment index_ts = Some out /\
    fst (main (fresh (Some index_ts) true true)) = inl tt /\
    file (snd (main (fresh (Some index_ts) true true))) = Some (encode_text [nl] out) /\
    log (snd (main (fresh (Some index_ts) true true))) =
      [] ++ [EvOpenRead; EvOpenWrite; EvWrite out] ++ map EvPrint summary.
Proof.
  assert (decode_text index_ts = Some index_ts) as Hd by (vm_compute; reflexivity).
  split; [exact Hd|].
  exact (X8_successful_run (fresh (Some index_ts) true true) index_ts index_ts
           eq_refl eq_refl Hd eq_refl).
Defined.

(** X9: on a platform whose line separator is the line feed, or carriage
    return and line feed, [k + 1] runs of the script in a row on a readable
    and writable file whose bytes decode to the text [s] all succeed: each
    run reads back what the run before wrote.  The file then holds the three
    rewrites applied [k + 1] times over to [s], and the summary has been
    printed [k + 1] times. *)
Theorem X9_repeated_runs (k : nat) (w : world) (bytes s : str) :
  file w = Some bytes -> readable w = true -> writable w = true ->
  linesep w = [nl] \/ linesep w = [cr; nl] ->
  decode_text bytes = Some s ->
  fst (main_n (S k) w) = inl tt /\
  file (snd (main_n (S k) w)) =
    option_map (encode_text (linesep w)) (augment_n (S k) s) /\
  stdout (snd (main_n (S k) w)) = stdout w ++ concat (repeat summary (S k)).
Proof.
  intros Hf Hr Hw Hs Hd.
  destruct (main_n_success k w bytes s Hf Hr Hw Hs Hd)
    as (w' & E & Hf' & _ & _ & _ & Ho & _).
  rewrite E, augment_n_iter. cbn [fst snd option_map]. repeat split; assumption.
Qed.

Lemma X9_witness :
  decode_text index_ts = Some index_ts /\
  fst (main_n 2 (fresh (Some index_ts) true true)) = inl tt /\
  file (snd (main_n 2 (fresh (Some index_ts) true true))) =
    option_map (encode_text [nl]) (augment_n 2 index_ts) /\
  stdout (snd (main_n 2 (fresh (Some index_ts) true true))) =
    [] ++ concat (repeat summary 2).
Proof.
  assert (decode_text index_ts = Some index_ts) as Hd by (vm_compute; reflexivity).
  split; [exact Hd|].
  exact (X9_repeated_runs 1 (fresh (Some index_ts) true true) index_ts index_ts
           eq_refl eq_refl eq_refl (or_introl eq_refl) Hd).
Defined.

(** X10: the import rewrite works line by line: the rewrite of a content is
    made of the rewrites of its lines, joined by the same line breaks, and
    so is the rewrite of any texts joined by line breaks. *)
Theorem X10_import_rewrite_by_lines (s : str) :
  add_import s = join [nl] (map add_import (split_lines s)) /\
  forall ls, add_import (join [nl] ls) = join [nl] (map add_import ls).
Proof.
  split; [|apply add_import_join].
  rewrite <- add_import_join, join_split_lines. reflexivity.
Qed.

(** X11: after the import rewrite the output has as many import lines as
    the content given, and each of them is followed at once by a line break
    and the new import block. *)
Theorem X11_import_line_followed_by_block (s : str) :
  length (occs import_anchor (add_import s)) = length (occs import_anchor s) /\
  forall i,
    In i (occs import_anchor (add_import s)) ->
    startswith (import_anchor ++ [nl] ++ import_statement)
      (skipn i (add_import s)) = true.
Proof.
  split; [apply add_import_count|].
  intros i H. rewrite import_anchor_followed in H. apply occs_In in H.
  exact (proj2 H).
Qed.

Lemma X11_witness :
  In 29 (occs import_anchor (add_import index_ts)) /\
  startswith (import_anchor ++ [nl] ++ import_statement)
    (skipn 29 (add_import index_ts)) = true.
Proof.
  assert (In 29 (occs import_anchor (add_import index_ts))) as H
    by (vm_compute; left; reflexivity).
  split; [exact H|].
  exact (proj2 (X11_import_line_followed_by_block index_ts) 29 H).
Defined.

(** X12: when the file can be opened for reading but its bytes are not
    well-formed UTF-8, the run ends with the decoding error raised by the
    read: the file is not opened for writing, it holds the bytes it held,
    and nothing is printed. *)
Theorem X12_decode_failure (w : world) (bytes : str) :
  file w = Some bytes -> readable w = true -> utf8_valid bytes = false ->
  fst (main w) = inr DecodeError /\
  file (snd (main w)) = Some bytes /\
  stdout (snd (main w)) = stdout w /\
  log (snd (main w)) = log w ++ [EvOpenRead].
Proof.
  intros Hf Hr Hv.
  assert (decode_text bytes = None) as Hd by (unfold decode_text; rewrite Hv; reflexivity).
  rewrite (main_decode_failure w bytes Hf Hr Hd).
  cbn [fst snd file stdout log]. repeat split. exact Hf.
Qed.

Lemma X12_witness :
  utf8_valid ["255"%char; nl] = false /\
  fst (main (fresh (Some ["255"%char; nl]) true true)) = inr DecodeError /\
  file (snd (main (fresh (Some ["255"%char; nl]) true true))) = Some ["255"%char; nl] /\
  stdout (snd (main (fresh (Some ["255"%char; nl]) true true))) = [] /\
  log (snd (main (fresh (Some ["255"%char; nl]) true true))) = [] ++ [EvOpenRead].
Proof.
  split; [reflexivity|].
  exact (X12_decode_failure (fresh (Some ["255"%char; nl]) true true)
           ["255"%char; nl] eq_refl eq_refl eq_refl).
Defined.

(** X13: the text the script reads has no carriage return, since the read
    turns [\r\n] and a lone [\r] into [\n], and the three rewrites keep it
    so and keep it well-formed UTF-8; hence what a run writes, with the line
    feed or with carriage return and line feed as line separator, is read
    back by the next run as the very text that was written. *)
Theorem X13_written_text_reads_back (bytes s sep : str) :
  decode_text bytes = Some s ->
  sep = [nl] \/ sep = [cr; nl] ->
  exists out,
    augment s = Some out /\
    no_cr s = true /\ no_cr out = true /\
    utf8_valid out = true /\
    decode_text (encode_text sep out) = Some out.
Proof.
  intros Hd Hsep. destruct (decode_text_spec bytes s Hd) as (_ & _ & Hv & Hc).
  exists (augmented s). split; [apply augment_augmented|].
  assert (utf8_valid (augmented s) = true) as Hv'
    by (rewrite utf8_valid_augmented; exact Hv).
  pose proof (no_cr_augmented s Hc) as Hc'.
  repeat split; try assumption.
  apply decode_encode; assumption.
Qed.

Lemma X13_witness :
  decode_text (encode_text [cr; nl] tools_array) = Some tools_array /\
  exists out,
    augment tools_array = Some out /\
    no_cr tools_array = true /\ no_cr out = true /\
    utf8_valid out = true /\
    decode_text (encode_text [cr; nl] out) = Some out.
Proof.
  assert (decode_text (encode_text [cr; nl] tools_array) = Some tools_array) as Hd
    by (vm_compute; reflexivity).
  split; [exact Hd|].
  exact (X13_written_text_reads_back (encode_text [cr; nl] tools_array)
           tools_array [cr; nl] Hd (or_intror eq_refl)).
Defined.
